(** * clasp [logs]: the log-tailing command of src/commands.ts

    A shallow embedding of [logs] (src/commands.ts, lines 329-492): the
    closure state [logEntryCache], the batch printer [printLogs], the fetch
    [fetchAndPrintLogs] and the watch timer, followed by the properties the
    specification states about them.

    Conventions.
    - JavaScript strings are [string]s (sequences of code units).
    - A log entry is a record typed after the Logging API's LogEntry: the
      fields the code reads unconditionally ([severity], [timestamp],
      [resource.labels], [insertId]) are present, the ones it tests or
      guards ([function_name], the three payloads, ['@type'],
      [methodName]) are optional.
    - Side effects go through the monad [M]: a computation maps the
      [World] (console, spinner, dedup cache) to an [Outcome], which is a
      normal completion, a thrown exception or a process exit.
    - What the file imports from elsewhere is a parameter: the host's
      built-ins ([Runtime]), the message table of utils.ts ([Utils]) and
      the error reporter [logError].

    After [logs] come pieces of [clone], [list], [undeploy], [apis] and
    [setting], embedded as the calls they make ([T]): what the outside world
    answers (a listing, the settings object, a status) is an argument. *)

From Stdlib Require Import ZArith Ascii String Sorted.
From stdpp Require Import base list strings gmap pretty sorting.
From Equations Require Import Equations.

(** ** JavaScript values and plain objects *)
Module JS.

(** ToBoolean on a string: only the empty string is falsy. *)
Definition truthy (s : string) : bool := negb (String.eqb s "").

(** [a || b] on strings. *)
Definition or_else (a b : string) : string := if truthy a then a else b.

Fixpoint spaces (n : nat) : string :=
  match n with
  | O => ""
  | S k => String " "%char (spaces k)
  end.

(** string.prototype.padend, with the default filler: nothing is cut off a
    string that is already [maxLength] long or longer. *)
Definition padEnd (s : string) (maxLength : nat) : string :=
  s +:+ spaces (maxLength - String.length s).

(** [s.substr(start, len)]. *)
Definition substr (s : string) (start len : nat) : string :=
  String.substring start len s.

Definition dquote : string := String (ascii_of_nat 34) "".

(** The members every plain object inherits from Object.prototype. *)
Inductive ProtoMember :=
| NativeFunction (name : string)
| ObjectPrototype.

Definition Object_prototype : list (string * ProtoMember) :=
  [ ("constructor", NativeFunction "Object");
    ("__defineGetter__", NativeFunction "__defineGetter__");
    ("__defineSetter__", NativeFunction "__defineSetter__");
    ("hasOwnProperty", NativeFunction "hasOwnProperty");
    ("__lookupGetter__", NativeFunction "__lookupGetter__");
    ("__lookupSetter__", NativeFunction "__lookupSetter__");
    ("isPrototypeOf", NativeFunction "isPrototypeOf");
    ("propertyIsEnumerable", NativeFunction "propertyIsEnumerable");
    ("toString", NativeFunction "toString");
    ("valueOf", NativeFunction "valueOf");
    ("__proto__", ObjectPrototype);
    ("toLocaleString", NativeFunction "toLocaleString") ].

Fixpoint assoc {A} (k : string) (l : list (string * A)) : option A :=
  match l with
  | [] => None
  | (k', a) :: l' => if String.eqb k k' then Some a else assoc k l'
  end.

Definition inherited (k : string) : option ProtoMember := assoc k Object_prototype.

(** [String(m)] for an inherited member, as V8 prints it. *)
Definition String_of_member (m : ProtoMember) : string :=
  match m with
  | NativeFunction name => "function " +:+ name +:+ "() { [native code] }"
  | ObjectPrototype => "[object Object]"
  end.

(** The result of [o[k]] on a plain object [o] with own properties [own]:
    the own property, else the inherited member, else undefined. *)
Inductive Lookup (A : Type) :=
| Own (a : A)
| Inherited (m : ProtoMember)
| Absent.
Arguments Own {A} a.
Arguments Inherited {A} m.
Arguments Absent {A}.

Definition get {A} (own : gmap string A) (k : string) : Lookup A :=
  match own !! k with
  | Some a => Own a
  | None =>
      match inherited k with
      | Some m => Inherited m
      | None => Absent
      end
  end.

(** [o[k] = v] for a primitive [v]: ["__proto__"] is an accessor of the
    prototype whose setter ignores primitives; every other key becomes an
    own property. *)
Definition set {A} (own : gmap string A) (k : string) (v : A) : gmap string A :=
  if String.eqb k "__proto__" then own else <[k := v]> own.

(** ToBoolean on the result of a lookup in an object of booleans. *)
Definition truthy_flag (r : Lookup bool) : bool :=
  match r with
  | Own b => b
  | Inherited _ => true
  | Absent => false
  end.

Inductive Error := TypeError | RangeError.

Inductive Result (A : Type) :=
| Ok (a : A)
| Throw (e : Error).
Arguments Ok {A} a.
Arguments Throw {A} e.

End JS.
Export JS.

(** ** Dates: the time-value arithmetic of ECMA-262 *)
Module Date.
Local Open Scope Z_scope.

Definition msPerDay : Z := 86400000.
Definition msPerHour : Z := 3600000.
Definition msPerMinute : Z := 60000.
Definition msPerSecond : Z := 1000.

Definition Day (t : Z) : Z := t / msPerDay.
Definition HourFromTime (t : Z) : Z := (t / msPerHour) mod 24.
Definition MinFromTime (t : Z) : Z := (t / msPerMinute) mod 60.
Definition SecFromTime (t : Z) : Z := (t / msPerSecond) mod 60.
Definition msFromTime (t : Z) : Z := t mod msPerSecond.

Definition MakeTime (hour min sec ms : Z) : Z :=
  hour * msPerHour + min * msPerMinute + sec * msPerSecond + ms.
Definition MakeDate (day time : Z) : Z := day * msPerDay + time.

(** A Date object holds a time value (milliseconds since the epoch, UTC)
    or NaN. *)
Inductive Date :=
| TimeValue (t : Z)
| InvalidDate.

Definition TimeClip (t : Z) : Date :=
  if Z.abs t <=? 8640000000000000 then TimeValue t else InvalidDate.

(** Year, month and day of the month of a day number (proleptic Gregorian
    calendar, the one of YearFromTime, MonthFromTime and DateFromTime). *)
Definition civil (day : Z) : Z * Z * Z :=
  let z := day + 719468 in
  let era := z / 146097 in
  let doe := z - era * 146097 in
  let yoe := (doe - doe / 1460 + doe / 36524 - doe / 146096) / 365 in
  let doy := doe - (365 * yoe + yoe / 4 - yoe / 100) in
  let mp := (5 * doy + 2) / 153 in
  let d := doy - (153 * mp + 2) / 5 + 1 in
  let m := if mp <? 10 then mp + 3 else mp - 9 in
  let y := yoe + era * 400 in
  (if m <=? 2 then y + 1 else y, m, d).

Fixpoint zeros (n : nat) : string :=
  match n with
  | O => ""
  | S k => String "0"%char (zeros k)
  end.

(** A non-negative number in decimal, left-padded with zeros to [width]. *)
Definition digits (width : nat) (n : Z) : string :=
  let s := pretty (Z.to_N n) in
  zeros (width - String.length s) +:+ s.

Definition year_string (y : Z) : string :=
  if (0 <=? y) && (y <=? 9999) then digits 4 y
  else if y <? 0 then "-" +:+ digits 6 (- y)
  else "+" +:+ digits 6 y.

(** [toISOString] of a valid time value: YYYY-MM-DDTHH:mm:ss.sssZ. *)
Definition iso8601 (t : Z) : string :=
  let '(y, m, d) := civil (Day t) in
  year_string y +:+ "-" +:+ digits 2 m +:+ "-" +:+ digits 2 d +:+ "T" +:+
  digits 2 (HourFromTime t) +:+ ":" +:+ digits 2 (MinFromTime t) +:+ ":" +:+
  digits 2 (SecFromTime t) +:+ "." +:+ digits 3 (msFromTime t) +:+ "Z".

(** [d.toISOString()]: a RangeError on an invalid date. *)
Definition toISOString (d : Date) : Result string :=
  match d with
  | TimeValue t => Ok (iso8601 t)
  | InvalidDate => Throw RangeError
  end.

Section LocalTime.
(** The host's time zone: [LocalTZA t isUTC] is the offset of local time
    from UTC, in milliseconds, at the UTC instant [t] ([isUTC = true]) or
    at the local time [t] ([isUTC = false]). *)
Variable LocalTZA : Z -> bool -> Z.

Definition LocalTime (t : Z) : Z := t + LocalTZA t true.
Definition UTC (t : Z) : Z := t - LocalTZA t false.

(** [d.getSeconds()]: NaN ([None]) on an invalid date. *)
Definition getSeconds (d : Date) : option Z :=
  match d with
  | TimeValue t => Some (SecFromTime (LocalTime t))
  | InvalidDate => None
  end.

(** [d.setSeconds(sec)], returning the date as updated. *)
Definition setSeconds (d : Date) (sec : option Z) : Date :=
  match d, sec with
  | TimeValue t, Some s =>
      let tl := LocalTime t in
      TimeClip (UTC (MakeDate (Day tl)
                       (MakeTime (HourFromTime tl) (MinFromTime tl) s (msFromTime tl))))
  | _, _ => InvalidDate
  end.
End LocalTime.

End Date.
Export Date.

(** ** Log entries, as the Logging API returns them *)

#[local] Unset Elimination Schemes.
Inductive JsonValue :=
| JNull
| JBool (b : bool)
| JNumber (n : Z)
| JString (s : string)
| JArray (items : list JsonValue)
| JObject (fields : list (string * JsonValue)).
#[local] Set Elimination Schemes.

Record Labels := { function_name : option string }.

Record MonitoredResource := { labels : Labels }.

(** A proto payload, with the two members the printer looks at: the type
    tag ['@type'] and, for an audit-log record, [methodName]. *)
Record ProtoPayload := {
  at_type : option string;
  methodName : option string }.

Record LogEntry := {
  severity : string;
  timestamp : string;
  resource : MonitoredResource;
  textPayload : option string;
  protoPayload : option ProtoPayload;
  jsonPayload : option (list (string * JsonValue));
  insertId : string }.

(** The options object [cmd] of [logs]. Its type names four flags; whatever
    else the object carries is in [others], which [logs] never reads. *)
Record Cmd := {
  json : bool;
  open : bool;
  setup : bool;
  watch : bool;
  others : list (string * JsonValue) }.

(** The part of the credentials [logs] looks at. *)
Record ClaspToken := { isLocalCreds : bool }.

(** ** The world and the effect monad *)

Record World := {
  stdout : list string;                 (* lines written by console.log *)
  stderr : list string;                 (* messages reported by logError *)
  spinner : option string;              (* title of the running spinner *)
  opened : list string;                 (* URLs handed to the browser *)
  logEntryCache : gmap string bool }.   (* line 338 *)

Inductive Outcome (A : Type) :=
| Done (a : A) (w : World)
| Thrown (e : Error) (w : World)
| Exited (code : Z) (w : World).
Arguments Done {A} a w.
Arguments Thrown {A} e w.
Arguments Exited {A} code w.

Definition after {A} (o : Outcome A) : World :=
  match o with
  | Done _ w | Thrown _ w | Exited _ w => w
  end.

Definition M (A : Type) : Type := World -> Outcome A.

#[global] Instance M_ret : MRet M := fun A a w => Done a w.
#[global] Instance M_bind : MBind M := fun A B k m w =>
  match m w with
  | Done a w' => k a w'
  | Thrown e w' => Thrown e w'
  | Exited c w' => Exited c w'
  end.

#[global] Instance Result_ret : MRet Result := fun A a => Ok a.
#[global] Instance Result_bind : MBind Result := fun A B k r =>
  match r with
  | Ok a => k a
  | Throw e => Throw e
  end.

Definition lift {A} (r : Result A) : M A := fun w =>
  match r with
  | Ok a => Done a w
  | Throw e => Thrown e w
  end.

Definition modify (f : World -> World) : M unit := fun w => Done tt (f w).

Definition console_log (line : string) : M unit :=
  modify (fun w => {| stdout := stdout w ++ [line]; stderr := stderr w;
                      spinner := spinner w; opened := opened w;
                      logEntryCache := logEntryCache w |}).

Definition console_error (line : string) : M unit :=
  modify (fun w => {| stdout := stdout w; stderr := stderr w ++ [line];
                      spinner := spinner w; opened := opened w;
                      logEntryCache := logEntryCache w |}).

Definition set_spinner (s : option string) : M unit :=
  modify (fun w => {| stdout := stdout w; stderr := stderr w;
                      spinner := s; opened := opened w;
                      logEntryCache := logEntryCache w |}).

Definition open_url (url : string) : M unit :=
  modify (fun w => {| stdout := stdout w; stderr := stderr w;
                      spinner := spinner w; opened := opened w ++ [url];
                      logEntryCache := logEntryCache w |}).

(** [logEntryCache[id]], as a condition. *)
Definition seen (cache : gmap string bool) (id : string) : bool :=
  truthy_flag (get cache id).

Definition cache_seen (id : string) : M bool := fun w =>
  Done (seen (logEntryCache w) id) w.

(** [logEntryCache[id] = true]. *)
Definition cache_mark (id : string) : M unit :=
  modify (fun w => {| stdout := stdout w; stderr := stderr w;
                      spinner := spinner w; opened := opened w;
                      logEntryCache := set (logEntryCache w) id true |}).

(** The lines a computation writes to the console when run from [w]. *)
Definition output_of {A} (m : M A) (w : World) : list string :=
  drop (length (stdout w)) (stdout (after (m w))).

(** The world [logs] starts from: nothing printed, the cache [{}]. *)
Definition initial : World :=
  {| stdout := []; stderr := []; spinner := None; opened := [];
     logEntryCache := ∅ |}.

(** ** What [logs] takes from its environment *)

Inductive Color := red | cyan | green | magenta | yellow.

(** Built-ins and libraries: chalk's colour functions, [JSON.stringify(v)],
    [JSON.stringify(entry, null, 2)] and the host's time zone. *)
Class Runtime := {
  chalk : Color -> string -> string;
  JSON_stringify : list (string * JsonValue) -> string;
  JSON_stringify_indented : LogEntry -> string;
  LocalTZA : Z -> bool -> Z }.

(** The constants of utils.ts that [logs] mentions. *)
Class Utils := {
  ERROR_NO_FUNCTION_NAME : string;
  ERROR_PAYLOAD_UNKNOWN : string;
  ERROR_PERMISSION_DENIED : string;
  ERROR_PERMISSION_DENIED_LOCAL : string;
  ERROR_UNAUTHENTICATED : string;
  ERROR_UNAUTHENTICATED_LOCAL : string;
  LOG_GRAB_LOGS : string;
  LOG_LOCAL_CREDS : string;
  LOG_STACKDRIVER_SETUP : string;
  URL_LOGS : string -> string }.

(** ** The command *)

Definition inspect {A : Type} (x : A) : { y : A | x = y } := exist _ x eq_refl.

Definition AuditLog_type : string := "type.googleapis.com/google.cloud.audit.AuditLog".

(** What [payloadData] holds: a string, or the proto payload object. *)
Inductive Payload :=
| PString (s : string)
| PObject (p : ProtoPayload).

(** [`${payloadData}`]. *)
Definition Payload_toString (p : Payload) : string :=
  match p with
  | PString s => s
  | PObject _ => "[object Object]"
  end.

(** [padEnd(v, n)] on a value that may be undefined: the shim throws a
    TypeError on undefined. *)
Definition padEnd_opt (v : option string) (maxLength : nat) : Result string :=
  match v with
  | Some s => Ok (padEnd s maxLength)
  | None => Throw TypeError
  end.

(** An array is an object, hence truthy. *)
Definition truthy_array {A} (entries : list A) : bool := true.

(** The loop condition of line 346, read with the precedence of the
    language: [(i < 50 && entries) ? i < entries.length : i < 0]. *)
Definition for_cond {A} (i : nat) (entries : list A) : bool :=
  if (i <? 50) && truthy_array entries then i <? length entries else i <? 0.

Definition POLL_INTERVAL : Z := 6000. (* line 483 *)

(** The request handed to [logger.entries.list] and its response. *)
Record ListRequest := {
  resourceNames : list string;
  filter : string;
  orderBy : string }.

Record ListResponse := {
  status : Z;
  statusText : string;
  data_entries : option (list LogEntry) }.

(** An [await]: the request in flight and the rest of the function, to be
    run on the response. *)
Record Pending := {
  request : ListRequest;
  resume : ListResponse -> M unit }.

(** What [logs] has set up when it returns. *)
Inductive Started :=
| OpenedLogs (m : M unit)
| Watching (interval : Z) (tick : Z -> M Pending)
| FetchingOnce (m : M Pending).

(** Statements of a [switch] from the matching label on: without [break],
    control falls through every later statement. *)
Fixpoint fall_through (stmts : list (M unit)) : M unit :=
  match stmts with
  | [] => mret tt
  | s :: rest => s ;; fall_through rest
  end.

Section Logs.
Context `{Runtime} `{Utils}.
(** [logError(null, description)] of utils.ts. *)
Variable logError : string -> M unit.
(** The variables [logs] closes over. *)
Variable cmd : Cmd.
Variable projectId : string.
Variable oauthSettings : ClaspToken.

(** Lines 348-349. *)
Definition functionName_of (e : LogEntry) : string :=
  match function_name (labels (resource e)) with
  | Some functionName =>
      if truthy functionName then padEnd functionName 15 else ERROR_NO_FUNCTION_NAME
  | None => ERROR_NO_FUNCTION_NAME
  end.

(** Lines 354-361: [data.textPayload || data.jsonPayload ||
    data.protoPayload || ERROR.PAYLOAD_UNKNOWN]. *)
Definition selectPayload (e : LogEntry) : Payload :=
  let data_jsonPayload :=
    match jsonPayload e with
    | Some j => substr (JSON_stringify j) 0 255
    | None => ""
    end in
  let or_json_proto_unknown :=
    if truthy data_jsonPayload then PString data_jsonPayload
    else match protoPayload e with
         | Some p => PObject p
         | None => PString ERROR_PAYLOAD_UNKNOWN
         end in
  match textPayload e with
  | Some t => if truthy t then PString t else or_json_proto_unknown
  | None => or_json_proto_unknown
  end.

(** Line 362: [payloadData && payloadData['@type'] === '...AuditLog']; a
    string has no such member. *)
Definition is_AuditLog (payloadData : Payload) : bool :=
  match payloadData with
  | PString _ => false
  | PObject p =>
      match at_type p with
      | Some t => String.eqb t AuditLog_type
      | None => false
      end
  end.

(** Lines 366-368. *)
Definition pad_payload (payloadData : Payload) : Payload :=
  match payloadData with
  | PString s => if truthy s then PString (padEnd s 20) else PString s
  | PObject p => PObject p
  end.

(** Lines 348-369: the function-name field and the payload of an entry. *)
Definition entryFields (e : LogEntry) : Result (string * Payload) :=
  let functionName := functionName_of e in
  if json cmd then
    Ok (functionName, PString (JSON_stringify_indented e))
  else
    let payloadData := selectPayload e in
    '(functionName, payloadData) ←
      (if is_AuditLog payloadData then
         functionName ← match protoPayload e with
                        | Some p => padEnd_opt (methodName p) 15
                        | None => Throw TypeError
                        end;
         Ok (functionName, PString LOG_STACKDRIVER_SETUP)
       else Ok (functionName, payloadData));
    Ok (functionName, pad_payload payloadData).

(** Lines 370-376. *)
Definition coloredStringMap (severity : string) : gmap string string :=
  <["ERROR" := chalk red severity]>
    (<["INFO" := chalk cyan severity]>
       (<["DEBUG" := chalk green severity]>
          (<["NOTICE" := chalk magenta severity]>
             (<["WARNING" := chalk yellow severity]> ∅)))).

(** Lines 377-378: [String(coloredStringMap[severity] || severity)],
    padded. *)
Definition coloredSeverity (severity : string) : string :=
  let picked :=
    match get (coloredStringMap severity) severity with
    | Own s => or_else s severity
    | Inherited m => String_of_member m
    | Absent => severity
    end in
  padEnd picked 20.

(** The template of line 381. *)
Definition line_of (coloredSeverity timestamp functionName : string)
    (payloadData : Payload) : string :=
  coloredSeverity +:+ " " +:+ timestamp +:+ " " +:+ functionName +:+ " " +:+
  Payload_toString payloadData.

(** The line an entry is printed as, when it is printed. *)
Definition render (e : LogEntry) : Result string :=
  '(functionName, payloadData) ← entryFields e;
  Ok (line_of (coloredSeverity (severity e)) (timestamp e) functionName payloadData).

(** One iteration of the loop of [printLogs], lines 347-383. *)
Definition printLogs_body (e : LogEntry) : M unit :=
  '(functionName, payloadData) ← lift (entryFields e);
  let coloredSeverity := coloredSeverity (severity e) in
  is_seen ← cache_seen (insertId e);
  if negb is_seen then
    console_log (line_of coloredSeverity (timestamp e) functionName payloadData) ;;
    cache_mark (insertId e)
  else mret tt.

(** The loop of line 346, from index [i] on. *)
Equations? printLogs_from (entries : list LogEntry) (i : nat) : M unit
  by wf (50 - i) lt :=
printLogs_from entries i with inspect (for_cond i entries) := {
  | exist _ true _ =>
      match entries !! i with
      | Some e => printLogs_body e
      | None => lift (Throw TypeError)
      end ;;
      printLogs_from entries (S i)
  | exist _ false _ => mret tt }.
Proof.
  match goal with Hc : for_cond _ _ = true |- _ =>
    unfold for_cond in Hc; destruct (Nat.ltb_spec i 50); simpl in Hc;
    [lia | apply Nat.ltb_lt in Hc; lia]
  end.
Qed.

(** Lines 344-385. [None] is a call without the argument, which the
    default parameter turns into the empty array. [reverse] works in place
    on the array of the response; [logs] hands each response to [printLogs]
    once and keeps no other reference to it, so a fresh list stands for
    it. *)
Definition printLogs (entries : option (list LogEntry)) : M unit :=
  let entries := default [] entries in
  let entries := reverse entries in
  printLogs_from entries 0.

(** Lines 444-478, split at the [await]. *)
Definition fetchAndPrintLogs (startDate : option Date) : M Pending :=
  set_spinner (Some ((if isLocalCreds oauthSettings then LOG_LOCAL_CREDS else "")
                     +:+ LOG_GRAB_LOGS)) ;;
  filter ← match startDate with
           | Some d =>
               iso ← lift (toISOString d);
               mret ("timestamp >= " +:+ dquote +:+ iso +:+ dquote)
           | None => mret ""
           end;
  mret {|
    request := {| resourceNames := ["projects/" +:+ projectId];
                  filter := filter;
                  orderBy := "timestamp desc" |};
    resume := fun logs =>
      set_spinner None ;;
      console_log filter ;;
      if negb (status logs =? 200)%Z then
        fall_through
          (drop (if (status logs =? 401)%Z then 0
                 else if (status logs =? 403)%Z then 1 else 2)
             [ logError (if isLocalCreds oauthSettings
                         then ERROR_UNAUTHENTICATED_LOCAL else ERROR_UNAUTHENTICATED);
               logError (if isLocalCreds oauthSettings
                         then ERROR_PERMISSION_DENIED_LOCAL else ERROR_PERMISSION_DENIED);
               logError ("(" +:+ pretty (status logs) +:+ ") Error: "
                         +:+ statusText logs) ])
      else printLogs (data_entries logs) |}.

(** The handler of the timer, lines 485-487; [now] is the clock reading of
    [new Date()]. *)
Definition watch_tick (now : Z) : M Pending :=
  let startDate := TimeValue now in
  let startDate :=
    setSeconds LocalTZA startDate
      ((fun seconds => seconds - (10 * POLL_INTERVAL) / 1000)%Z
         <$> getSeconds LocalTZA startDate) in
  fetchAndPrintLogs (Some startDate).

(** Lines 433-491: what [logs] does once the project id is known. *)
Definition logs : Started :=
  if open cmd then
    OpenedLogs (let url := URL_LOGS projectId in
                console_log ("Opening logs: " +:+ url) ;; open_url url)
  else if watch cmd then
    Watching POLL_INTERVAL watch_tick
  else
    FetchingOnce (fetchAndPrintLogs None).

End Logs.

(** The entries [printLogs] takes from a list it has just reversed: the
    loop of line 346 stops at index 50 or at the end of the array. *)
Fixpoint printLogs_each `{Runtime} `{Utils} (cmd : Cmd) (es : list LogEntry) : M unit :=
  match es with
  | [] => mret tt
  | e :: rest => printLogs_body cmd e ;; printLogs_each cmd rest
  end.

(** A session, as far as the printer is concerned: the batches of the
    successive responses (one in one-shot mode, one per answered tick in
    watch mode) go through [printLogs] one after the other, all sharing
    the cache of the enclosing [logs] call. The timer keeps firing whatever
    a handler did, so each batch starts from the world the previous one
    left. *)
Definition session `{Runtime} `{Utils} (cmd : Cmd)
    (batches : list (option (list LogEntry))) (w : World) : World :=
  foldl (fun w batch => after (printLogs cmd batch w)) w batches.

(** Modelled from the spec: [logError] is defined in utils.ts, which is not
    part of the sources at hand. By sections 4.5 and 7 of the specification
    a failed fetch is reported on the error sink, once per occurrence, and
    neither the process nor the watch loop ends with it: the reporter writes
    the description and returns. *)
Definition logError_reporting (description : string) : M unit :=
  console_error description.

(** The helper as its callers in commands.ts use it: a reporter that writes
    the description and ends the process. Line 912 throws what it returns,
    and lines 681-688 and 1049-1058 go on after a report in a way that only
    makes sense if the report does not come back. *)
Definition logError_exiting (description : string) : M unit := fun w =>
  match console_error description w with
  | Done _ w' => Exited 1 w'
  | o => o
  end.

(** ** The trace of the printer, as functions of the cache *)

(** The entries [printLogs_each] prints, each with its line, from a cache
    [cache]: rendering comes first and ends the loop when it throws; an
    entry that is seen is skipped; an entry that is printed is marked. *)
Fixpoint emitted `{Runtime} `{Utils} (cmd : Cmd) (cache : gmap string bool)
    (es : list LogEntry) : list (LogEntry * string) :=
  match es with
  | [] => []
  | e :: rest =>
      match render cmd e with
      | Throw _ => []
      | Ok line =>
          if seen cache (insertId e) then emitted cmd cache rest
          else (e, line) :: emitted cmd (set cache (insertId e) true) rest
      end
  end.

(** The cache [printLogs_each] leaves. *)
Fixpoint marked `{Runtime} `{Utils} (cmd : Cmd) (cache : gmap string bool)
    (es : list LogEntry) : gmap string bool :=
  match es with
  | [] => cache
  | e :: rest =>
      match render cmd e with
      | Throw _ => cache
      | Ok line =>
          if seen cache (insertId e) then marked cmd cache rest
          else marked cmd (set cache (insertId e) true) rest
      end
  end.

(** What holds of every cache a session reaches: its own properties are all
    [true], and ["__proto__"] is not one of them. *)
Definition cache_ok (cache : gmap string bool) : Prop :=
  cache !! "__proto__" = None ∧ ∀ k b, cache !! k = Some b → b = true.

(** [rendered cmd es lines]: the lines are those of the entries, in order. *)
Definition rendered `{Runtime} `{Utils} (cmd : Cmd) (es : list LogEntry)
    (lines : list string) : Prop :=
  Forall2 (fun e line => render cmd e = Ok line) es lines.

(** The entries the loop of [printLogs] reaches: the first 50 of the
    reversed batch. *)
Definition kept (batch : option (list LogEntry)) : list LogEntry :=
  take 50 (reverse (default [] batch)).

(** A fetch and its answer: the function up to the [await], then the rest
    of it on the response [logs]. *)
Definition answered (fetch : M Pending) (logs : ListResponse) : M unit :=
  p ← fetch; resume p logs.

(** The period of the timer [logs] has installed, if any. *)
Definition interval_of (s : Started) : option Z :=
  match s with
  | Watching interval _ => Some interval
  | OpenedLogs _ | FetchingOnce _ => None
  end.

(** The severities the specification lists, with their colours. *)
Definition known_severities : list (string * Color) :=
  [ ("ERROR", red); ("INFO", cyan); ("DEBUG", green);
    ("NOTICE", magenta); ("WARNING", yellow) ].

(** ** Sample environments, for the examples *)
Module Sample.

Definition esc : string := String (ascii_of_nat 27) "".

(** chalk with colours on: the text between the SGR code of the colour and
    the code that resets the foreground; the empty string stays empty. *)
Definition ansi (c : Color) (s : string) : string :=
  let code := match c with
              | red => "31" | green => "32" | yellow => "33"
              | magenta => "35" | cyan => "36"
              end in
  if truthy s then esc +:+ "[" +:+ code +:+ "m" +:+ s +:+ esc +:+ "[39m" else s.

Definition quoted (s : string) : string := dquote +:+ s +:+ dquote.

(** A compact serializer, good for keys and strings without characters
    that need escaping. *)
Fixpoint stringify (v : JsonValue) : string :=
  match v with
  | JNull => "null"
  | JBool b => if b then "true" else "false"
  | JNumber n => pretty n
  | JString s => quoted s
  | JArray items =>
      "[" +:+
      (fix go (first : bool) (l : list JsonValue) : string :=
         match l with
         | [] => ""
         | x :: l' => (if first then "" else ",") +:+ stringify x +:+ go false l'
         end) true items +:+ "]"
  | JObject fields =>
      "{" +:+
      (fix go (first : bool) (l : list (string * JsonValue)) : string :=
         match l with
         | [] => ""
         | (k, x) :: l' =>
             (if first then "" else ",") +:+ quoted k +:+ ":" +:+ stringify x
             +:+ go false l'
         end) true fields +:+ "}"
  end.

Definition newline : string := String (ascii_of_nat 10) "".

(** A stand-in for [JSON.stringify(entry, null, 2)]: three of the members,
    indented; the host's serializer writes every member. *)
Definition stringify_entry (e : LogEntry) : string :=
  "{" +:+ newline +:+
  "  " +:+ quoted "insertId" +:+ ": " +:+ quoted (insertId e) +:+ "," +:+ newline +:+
  "  " +:+ quoted "severity" +:+ ": " +:+ quoted (severity e) +:+ "," +:+ newline +:+
  "  " +:+ quoted "timestamp" +:+ ": " +:+ quoted (timestamp e) +:+ newline +:+
  "}".

(** A host whose local time is UTC. *)
Definition utc_zone (t : Z) (isUTC : bool) : Z := 0%Z.

(** A host in a zone that puts its clocks back by one hour at
    2019-10-27T01:00:00Z (as Europe/London did): local time is UTC+1 before
    that instant and UTC from it on. A local time of the hour that occurs
    twice is read as its first occurrence, with the offset in force before
    the change. *)
Definition clocks_back : Z := 1572138000000.
Definition dst_zone (t : Z) (isUTC : bool) : Z :=
  if isUTC then (if t <? clocks_back then msPerHour else 0)%Z
  else (if t <? clocks_back + msPerHour then msPerHour else 0)%Z.

Definition node (zone : Z -> bool -> Z) : Runtime :=
  {| chalk := ansi;
     JSON_stringify := fun fields => stringify (JObject fields);
     JSON_stringify_indented := stringify_entry;
     LocalTZA := zone |}.

Definition utils : Utils :=
  {| ERROR_NO_FUNCTION_NAME := "N/A";
     ERROR_PAYLOAD_UNKNOWN := "Unknown Payload";
     ERROR_PERMISSION_DENIED := "Error: Permission denied. Enable the Apps Script API.";
     ERROR_PERMISSION_DENIED_LOCAL := "Error: Permission denied. Be sure that you have added the necessary scopes.";
     ERROR_UNAUTHENTICATED := "Error: Unauthenticated request: Please try again.";
     ERROR_UNAUTHENTICATED_LOCAL := "Error: Local client credentials unauthenticated.";
     LOG_GRAB_LOGS := "Grabbing logs...";
     LOG_LOCAL_CREDS := "Using local credentials. ";
     LOG_STACKDRIVER_SETUP := "Setting up StackDriver Logging.";
     URL_LOGS := fun projectId => "https://console.cloud.google.com/logs/viewer?project=" +:+ projectId |}.

Definition host : Runtime := node utc_zone.
Definition dst_host : Runtime := node dst_zone.

(** Timestamps of one format, compared as strings. *)
Definition lexicographic (a b : string) : Prop := String.ltb a b = true.

Definition plain : Cmd :=
  {| json := false; open := false; setup := false; watch := false; others := [] |}.

Definition watching : Cmd :=
  {| json := false; open := false; setup := false; watch := true; others := [] |}.

(** An options object that carries [pollIntervalMs: 1000] besides the
    flags. *)
Definition polling_every_second : Cmd :=
  {| json := false; open := false; setup := false; watch := true;
     others := [("pollIntervalMs", JNumber 1000)] |}.

Definition entry (sev ts id text : string) : LogEntry :=
  {| severity := sev; timestamp := ts;
     resource := {| labels := {| function_name := Some "myFunction" |} |};
     textPayload := Some text; protoPayload := None; jsonPayload := None;
     insertId := id |}.

(** Three entries, newest first, with ids of their own. *)
Definition batch3 : list LogEntry :=
  [ entry "ERROR" "2019-01-01T00:00:03.000Z" "id-c" "third";
    entry "INFO" "2019-01-01T00:00:02.000Z" "id-b" "second";
    entry "DEBUG" "2019-01-01T00:00:01.000Z" "id-a" "first" ].

(** A burst of [n] entries, newest first: the entry stamped [k] has the
    id [pretty k]. *)
Definition burst_entry (k : nat) : LogEntry :=
  entry "INFO" (pretty k) ("id-" +:+ pretty k) "tick".
Definition burst (n : nat) : list LogEntry :=
  burst_entry <$> reverse (seq 1 n).

Definition audit_entry : LogEntry :=
  {| severity := "NOTICE"; timestamp := "2019-01-01T00:00:00.000Z";
     resource := {| labels := {| function_name := None |} |};
     textPayload := None;
     protoPayload := Some {| at_type := Some AuditLog_type;
                             methodName := Some "SetIamPolicy" |};
     jsonPayload := None;
     insertId := "id-audit" |}.

(** An audit-log record that names no method. *)
Definition nameless_audit_entry : LogEntry :=
  {| severity := "NOTICE"; timestamp := "2019-01-01T00:00:02.000Z";
     resource := {| labels := {| function_name := None |} |};
     textPayload := None;
     protoPayload := Some {| at_type := Some AuditLog_type; methodName := None |};
     jsonPayload := None;
     insertId := "id-nameless" |}.

End Sample.

(** ** The other commands *)

(** [s.split(sep)] for a separator of one character. *)
Fixpoint String_split (sep : ascii) (s : string) : list string :=
  match s with
  | "" => [""]
  | String ch rest =>
      if Ascii.eqb ch sep then "" :: String_split sep rest
      else match String_split sep rest with
           | segment :: segments => String ch segment :: segments
           | [] => [String ch ""]
           end
  end.

(** [s.indexOf(ch)] for a single character; [None] is -1. *)
Fixpoint String_indexOf (ch : ascii) (s : string) : option nat :=
  match s with
  | "" => None
  | String c rest =>
      if Ascii.eqb c ch then Some 0 else S <$> String_indexOf ch rest
  end.

(** [s.substr(0, s.indexOf(ch))]: a negative length gives the empty
    string. *)
Definition before_first (ch : ascii) (s : string) : string :=
  match String_indexOf ch s with
  | Some i => substr s 0 i
  | None => ""
  end.

(** [items.join(sep)] on an array of strings. *)
Fixpoint Array_join (sep : string) (items : list string) : string :=
  match items with
  | [] => ""
  | [item] => item
  | item :: rest => item +:+ sep +:+ Array_join sep rest
  end.

(** [items.toString()]: the items joined by commas. *)
Definition Array_toString (items : list string) : string := Array_join "," items.

(** What a command calls, in the order it calls it. *)
Inductive Call :=
| Log (line : string)                                  (* console.log *)
| StdoutWrite (text : string)                          (* process.stdout.write *)
| SpinnerTitle (title : string)                        (* spinner.setSpinnerTitle *)
| SpinnerStart
| SpinnerStop
| SaveProject (scriptId : string) (rootDir : option string)
| FetchProject (scriptId rootDir : string) (versionNumber : option Z)
| DeploymentsList (scriptId : string)
| DeploymentsDelete (scriptId deploymentId : string)
| LogError (err description : option string).            (* logError, when it is a plain report *)

(** How a command ends. *)
Inductive Completion (A : Type) :=
| Returned (a : A)
| Raised (e : Error)
| Stopped (code : Z).
Arguments Returned {A} a.
Arguments Raised {A} e.
Arguments Stopped {A} code.

(** A command, as the calls it makes and the way it ends; what the calls
    answer is an argument of the command. *)
Definition T (A : Type) : Type := list Call * Completion A.

#[global] Instance T_ret : MRet T := fun A a => ([], Returned a).
#[global] Instance T_bind : MBind T := fun A B k m =>
  match m with
  | (calls, Returned a) => let '(calls', c) := k a in (calls ++ calls', c)
  | (calls, Raised e) => (calls, Raised e)
  | (calls, Stopped code) => (calls, Stopped code)
  end.

Definition call (c : Call) : T unit := ([c], Returned tt).
Definition raise {A} (e : Error) : T A := ([], Raised e).

Fixpoint for_each {A} (body : A -> T unit) (items : list A) : T unit :=
  match items with
  | [] => mret tt
  | item :: rest => body item ;; for_each body rest
  end.

(** More of utils.ts, and the ellipsize package. *)
Class Texts := {
  ERROR_DRIVE : string;
    ERROR_NO_VERSIONED_DEPLOYMENTS : string;
  ERROR_READ_ONLY_DELETE : string;
  ERROR_SCRIPT_ID_INCORRECT : string -> string;
  LOG_CLONING : string;
  LOG_FINDING_SCRIPTS_DNE : string;
  LOG_UNDEPLOYMENT_FINISH : string -> string;
  LOG_UNDEPLOYMENT_START : string -> string;
  URL_SCRIPT : string -> string;
  ellipsize : string -> nat -> string }.

(** A file of the Drive listing. *)
Record DriveFile := { file_name : string; file_id : string }.

Record FilesList := {
  files_status : Z;
  files : option (list DriveFile) }.

Record Deployment := { deploymentId : option string }.

Record DeploymentsResponse := {
  deployments_status : Z;
  deployments_statusText : string;
  deployments : option (list Deployment) }.

(** An entry of the service listing. *)
Record Documentation := { summary : option string }.
Record ServiceConfig := {
  config_name : option string;
  documentation : option Documentation }.
Record Service := {
  state : option string;
  config : option ServiceConfig }.

(** A value of the settings object of .clasp.json: a string, an array of
    strings, or a number, boolean, null or object. *)
Inductive SettingValue :=
| SString (s : string)
| SArray (items : list string)
| SOther.

Definition slash : ascii := ascii_of_nat 47.
Definition dot : ascii := ascii_of_nat 46.

Section Commands.
Context `{Texts}.
(** [logError(err, description)] of utils.ts; [None] is null for [err] and
    a missing argument for [description]. *)
Variable logError : option string -> option string -> T unit.

(** [clone], lines 236-268: the branch of a script id that is given (a
    non-empty string). *)
Definition clone_given (scriptId : string) (versionNumber : option Z) : T unit :=
  scriptId ←
    (if negb (String.length scriptId =? 57) then
       let ids := base.filter (fun s => String.length s = 57) (String_split slash scriptId) in
       mret (match ids with
             | id0 :: _ => id0
             | [] => scriptId
             end)
     else
       scriptId ←
         (if negb (String.length scriptId =? 57) then
            let ids :=
              base.filter (fun s => String.length s = 57) (String_split slash scriptId) in
            mret (match ids with
                  | id0 :: _ => id0
                  | [] => scriptId
                  end)
          else mret scriptId);
       call (SpinnerTitle LOG_CLONING) ;;
       call (SaveProject scriptId None) ;;
       call (FetchProject scriptId "" versionNumber) ;;
       mret scriptId);
  call (SpinnerTitle LOG_CLONING) ;;
  call (SaveProject scriptId None) ;;
  call (FetchProject scriptId "" versionNumber).

(** [list], lines 717-728: what follows the answer of the Drive listing. *)
Definition list_answered (filesList : FilesList) : T unit :=
  call SpinnerStop ;;
  if negb (files_status filesList =? 200)%Z then logError None (Some ERROR_DRIVE)
  else
    let files := default [] (files filesList) in
    if negb (length files =? 0) then call (Log LOG_FINDING_SCRIPTS_DNE)
    else
      let NAME_PAD_SIZE := 20 in
      for_each
        (fun file =>
           call (Log (padEnd (ellipsize (file_name file) NAME_PAD_SIZE) NAME_PAD_SIZE
                      +:+ " – " +:+ URL_SCRIPT (file_id file))))
        files.

(** [undeploy], lines 690-700. *)
Definition undeploy_delete (scriptId deploymentId : string) (deployment_status : Z) : T unit :=
  call (SpinnerTitle (LOG_UNDEPLOYMENT_START deploymentId)) ;;
  call SpinnerStart ;;
  call (DeploymentsDelete scriptId deploymentId) ;;
  call SpinnerStop ;;
  if negb (deployment_status =? 200)%Z then logError None (Some ERROR_READ_ONLY_DELETE)
  else call (Log (LOG_UNDEPLOYMENT_FINISH deploymentId)).

(** [undeploy], lines 672-700; [deploymentsList] is the answer of the
    listing and [deployment_status] the status of the deletion, should the
    command get that far. *)
Definition undeploy (scriptId deploymentId : string)
    (deploymentsList : DeploymentsResponse) (deployment_status : Z) : T unit :=
  if negb (truthy scriptId) then mret tt
  else if negb (truthy deploymentId) then
    call (DeploymentsList scriptId) ;;
    if negb (deployments_status deploymentsList =? 200)%Z then
      logError (Some (deployments_statusText deploymentsList)) None
    else
      let deployments := default [] (deployments deploymentsList) in
      (if length deployments =? 0
       then logError None (Some (ERROR_SCRIPT_ID_INCORRECT scriptId)) else mret tt) ;;
      (if length deployments <=? 1
       then logError None (Some ERROR_NO_VERSIONED_DEPLOYMENTS) else mret tt) ;;
      deploymentId ← match deployments !! (length deployments - 1) with
                     | Some {| deploymentId := id |} => mret (or_else (default "" id) "")
                     | None => raise TypeError
                     end;
      undeploy_delete scriptId deploymentId deployment_status
  else undeploy_delete scriptId deploymentId deployment_status.

(** [apis list], lines 965-970: the body of the loop over the enabled
    services. *)
Definition enabledAPI_line (enabledAPI : Service) : T unit :=
  match config enabledAPI with
  | Some c =>
      match documentation c with
      | Some d =>
          let name := or_else (default "" (config_name c)) "Unknown name." in
          call (Log (before_first dot name +:+ " - " +:+ default "undefined" (summary d)))
      | None => mret tt
      end
  | None => mret tt
  end.

(** [apis list], lines 956-970: the listing of the enabled services. *)
Definition list_enabled (serviceList : list Service) : T unit :=
  let MAX_PAGE_SIZE := 200 in
  (if MAX_PAGE_SIZE <=? length serviceList then
     call (Log "Uh oh. It looks like Grant did not add pagination. Please create a bug.")
   else mret tt) ;;
  let enabledAPIs :=
    base.filter (fun service => state service = Some "ENABLED") serviceList in
  for_each enabledAPI_line enabledAPIs.

(** [setting], lines 1031-1046: the value of a key, [currentSettings] being
    the own properties of the settings object. *)
Definition setting_get (settingKey : string)
    (currentSettings : gmap string SettingValue) : T unit :=
  match get currentSettings settingKey with
  | Absent => logError None (Some ("Unknown key " +:+ dquote +:+ settingKey +:+ dquote))
  | found =>
      let keyValue :=
        match found with
        | Own (SArray items) => Array_toString items
        | Own (SString s) => s
        | _ => ""
        end in
      call (StdoutWrite keyValue)
  end.

End Commands.

(** ** Sample values for the other commands *)
Module CommandSample.

Definition texts : Texts :=
  {| ERROR_DRIVE := "Something went wrong with the Google Drive API";
     ERROR_NO_VERSIONED_DEPLOYMENTS := "No versioned deployments found in project.";
     ERROR_READ_ONLY_DELETE := "Unable to delete read-only deployment.";
     ERROR_SCRIPT_ID_INCORRECT := fun scriptId => "The scriptId " +:+ scriptId +:+ " looks incorrect.";
     LOG_CLONING := "Cloning files...";
     LOG_FINDING_SCRIPTS_DNE := "No script files found.";
     LOG_UNDEPLOYMENT_FINISH := fun deploymentId => "Undeployed " +:+ deploymentId +:+ ".";
     LOG_UNDEPLOYMENT_START := fun deploymentId => "Undeploying " +:+ deploymentId +:+ "...";
     URL_SCRIPT := fun scriptId => "https://script.google.com/d/" +:+ scriptId +:+ "/edit";
     ellipsize := fun s n => substr s 0 n |}.

(** A reporter that reports and returns. *)
Definition logError_returning (err description : option string) : T unit :=
  call (LogError err description).

(** The id of the comment of line 239. *)
Definition script_id : string :=
  "1Ng7bNZ1K95wNi2H7IUwZzM68FL6ffxQhyc_ByV42zpS6qAFX8pFsWu2I".

(** An entry with a JSON payload only. *)
Definition json_entry : LogEntry :=
  {| severity := "INFO"; timestamp := "2019-01-01T00:00:04.000Z";
     resource := {| labels := {| function_name := Some "myFunction" |} |};
     textPayload := None; protoPayload := None;
     jsonPayload := Some [("message", JString "hi")];
     insertId := "id-json" |}.

Definition two_files : FilesList :=
  {| files_status := 200;
     files := Some [ {| file_name := "Budget"; file_id := "id-1" |};
                     {| file_name := "Mailer"; file_id := "id-2" |} ] |}.

Definition three_deployments : DeploymentsResponse :=
  {| deployments_status := 200;
     deployments_statusText := "OK";
     deployments := Some [ {| deploymentId := Some "head" |};
                           {| deploymentId := Some "first" |};
                           {| deploymentId := Some "second" |} ] |}.

Definition sheets : Service :=
  {| state := Some "ENABLED";
     config := Some {| config_name := Some "sheets.googleapis.com";
                       documentation :=
                         Some {| summary := Some "Reads and writes Google Sheets." |} |} |}.

Definition settings : gmap string SettingValue :=
  {[ "scriptId" := SString script_id; "filePushOrder" := SArray ["a.js"; "b.js"] ]}.

End CommandSample.

(** * Properties *)

Section Properties.
Context `{Runtime} `{Utils} (cmd : Cmd).
Implicit Types (c : gmap string bool) (es : list LogEntry) (e : LogEntry) (w : World).

Lemma for_cond_spec {A} i (entries : list A) :
  for_cond i entries = bool_decide (i < 50 ∧ i < length entries).
Proof.
  unfold for_cond, truthy_array. rewrite andb_true_r.
  destruct (Nat.ltb_spec i 50), (Nat.ltb_spec i (length entries)), (Nat.ltb_spec i 0);
    symmetry; try (apply bool_decide_eq_true; lia); apply bool_decide_eq_false; lia.
Qed.

Lemma printLogs_from_each entries i w :
  printLogs_from cmd entries i w = printLogs_each cmd (drop i (take 50 entries)) w.
Proof.
  funelim (printLogs_from cmd entries i);
    match goal with Hc : for_cond _ _ = _ |- _ =>
      pose proof Hc as Hc'; rewrite for_cond_spec in Hc' end.
  - apply bool_decide_eq_true in Hc' as [Hi Hlen].
    destruct (lookup_lt_is_Some_2 entries i Hlen) as [x Hx].
    assert (Hd : drop i (take 50 entries) = x :: drop (S i) (take 50 entries)).
    { apply drop_S. by rewrite lookup_take_lt. }
    rewrite Hd, Hx. simpl. unfold mbind, M_bind.
    destruct (printLogs_body cmd x w); auto.
  - apply bool_decide_eq_false in Hc'.
    rewrite drop_ge; [done|]. rewrite length_take. lia.
Qed.

Lemma printLogs_each_take batch w :
  printLogs cmd batch w = printLogs_each cmd (take 50 (reverse (default [] batch))) w.
Proof. unfold printLogs. by rewrite printLogs_from_each, drop_0. Qed.

(** One iteration, in terms of [render] and [seen]. *)
Lemma printLogs_body_spec e w :
  printLogs_body cmd e w =
  match render cmd e with
  | Throw err => Thrown err w
  | Ok line =>
      if seen (logEntryCache w) (insertId e) then Done tt w
      else Done tt {| stdout := stdout w ++ [line]; stderr := stderr w;
                      spinner := spinner w; opened := opened w;
                      logEntryCache := set (logEntryCache w) (insertId e) true |}
  end.
Proof.
  unfold printLogs_body, render.
  destruct (entryFields cmd e) as [[fn p]|err]; simpl; [|done].
  unfold mbind, M_bind, lift, cache_seen; simpl.
  by destruct (seen (logEntryCache w) (insertId e)).
Qed.

Lemma printLogs_each_after es w :
  after (printLogs_each cmd es w) =
  {| stdout := stdout w ++ (emitted cmd (logEntryCache w) es).*2;
     stderr := stderr w; spinner := spinner w; opened := opened w;
     logEntryCache := marked cmd (logEntryCache w) es |}.
Proof.
  revert w. induction es as [|e es IH]; intros w; simpl.
  - rewrite app_nil_r. by destruct w.
  - unfold mbind, M_bind. rewrite printLogs_body_spec.
    destruct (render cmd e) as [line|err]; simpl.
    + destruct (seen (logEntryCache w) (insertId e)); rewrite IH; simpl; [done|].
      by rewrite <- app_assoc.
    + rewrite app_nil_r. by destruct w.
Qed.


(** *** The cache *)

Lemma inherited_seen c id :
  cache_ok c -> is_Some (inherited id) -> seen c id = true.
Proof.
  intros [_ Htrue] [m Hm]. unfold seen, get.
  destruct (c !! id) as [b|] eqn:Hb; simpl.
  - by apply Htrue in Hb.
  - by rewrite Hm.
Qed.

Lemma proto_eqb id : String.eqb id "__proto__" = true -> is_Some (inherited id).
Proof. intros ->%String.eqb_eq. by eexists. Qed.

Lemma set_ok c id : cache_ok c -> cache_ok (set c id true).
Proof.
  intros [Hp Htrue]. unfold set.
  destruct (String.eqb id "__proto__") eqn:E; [done|].
  apply String.eqb_neq in E. split.
  - by rewrite lookup_insert_ne.
  - intros k b. rewrite lookup_insert. case_decide; [congruence | apply Htrue].
Qed.

Lemma seen_set_same c id :
  cache_ok c -> seen c id = false -> seen (set c id true) id = true.
Proof.
  intros Hok Hs. unfold set.
  destruct (String.eqb id "__proto__") eqn:E.
  - apply proto_eqb in E. rewrite inherited_seen in Hs; done.
  - unfold seen, get. by rewrite lookup_insert_eq.
Qed.

Lemma seen_set_other c id id' :
  id <> id' -> seen (set c id' true) id = seen c id.
Proof.
  intros Hne. unfold set. destruct (String.eqb id' "__proto__"); [done|].
  unfold seen, get. by rewrite lookup_insert_ne.
Qed.

Lemma seen_set_mono c id id' :
  seen c id = true -> seen (set c id' true) id = true.
Proof.
  intros Hs. destruct (decide (id = id')) as [<-|Hne].
  - unfold set. destruct (String.eqb id "__proto__"); [done|].
    unfold seen, get. by rewrite lookup_insert_eq.
  - by rewrite seen_set_other.
Qed.

(** *** The entries printed from a list *)

Lemma emitted_sublist c es : (emitted cmd c es).*1 `sublist_of` es.
Proof.
  revert c. induction es as [|e es IH]; intros c; simpl; [done|].
  destruct (render cmd e); [|apply sublist_nil_l].
  destruct (seen c (insertId e)); simpl.
  - by apply sublist_cons.
  - by apply sublist_skip.
Qed.

Lemma emitted_render c es :
  Forall2 (fun e line => render cmd e = Ok line)
    (emitted cmd c es).*1 (emitted cmd c es).*2.
Proof.
  revert c. induction es as [|e es IH]; intros c; simpl; [constructor|].
  destruct (render cmd e) eqn:Hr; [|constructor].
  destruct (seen c (insertId e)); simpl; [apply IH|].
  constructor; [done | apply IH].
Qed.

Lemma emitted_unseen c es :
  Forall (fun e => seen c (insertId e) = false) (emitted cmd c es).*1.
Proof.
  revert c. induction es as [|e es IH]; intros c; simpl; [constructor|].
  destruct (render cmd e); [|constructor].
  destruct (seen c (insertId e)) eqn:Hs; simpl; [apply IH|].
  constructor; [done|].
  eapply Forall_impl; [apply IH|]. intros e' He'. simpl in He'.
  destruct (seen c (insertId e')) eqn:Hs'; [|done].
  by rewrite (seen_set_mono _ _ _ Hs') in He'.
Qed.

Lemma emitted_NoDup c es :
  cache_ok c -> NoDup (insertId <$> (emitted cmd c es).*1).
Proof.
  revert c. induction es as [|e es IH]; intros c Hok; simpl; [constructor|].
  destruct (render cmd e); [|constructor].
  destruct (seen c (insertId e)) eqn:Hs; simpl; [by apply IH|].
  constructor; [|by apply IH, set_ok].
  intros (e' & Hid & He')%list_elem_of_fmap.
  pose proof (emitted_unseen (set c (insertId e) true) es) as Hu.
  rewrite Forall_forall in Hu. apply Hu in He'.
  rewrite <- Hid, seen_set_same in He'; done.
Qed.

Lemma marked_ok c es : cache_ok c -> cache_ok (marked cmd c es).
Proof.
  revert c. induction es as [|e es IH]; intros c Hok; simpl; [done|].
  destruct (render cmd e); [|done].
  destruct (seen c (insertId e)); [by apply IH | by apply IH, set_ok].
Qed.

Lemma marked_mono c es id : seen c id = true -> seen (marked cmd c es) id = true.
Proof.
  revert c. induction es as [|e es IH]; intros c Hs; simpl; [done|].
  destruct (render cmd e); [|done].
  destruct (seen c (insertId e)); [by apply IH | by apply IH, seen_set_mono].
Qed.

Lemma marked_emitted c es e :
  cache_ok c -> e ∈ (emitted cmd c es).*1 -> seen (marked cmd c es) (insertId e) = true.
Proof.
  revert c. induction es as [|e0 es IH]; intros c Hok; simpl; [by intros ?%elem_of_nil|].
  destruct (render cmd e0); [|by intros ?%elem_of_nil].
  destruct (seen c (insertId e0)) eqn:Hs; simpl; [by apply IH|].
  intros [->|He]%elem_of_cons.
  - by apply marked_mono, seen_set_same.
  - by apply IH; [apply set_ok|].
Qed.

(** An id is seen afterwards only if it was seen before or has been
    printed. *)
Lemma marked_seen_inv c es id :
  seen (marked cmd c es) id = true ->
  seen c id = true \/ id ∈ insertId <$> (emitted cmd c es).*1.
Proof.
  revert c. induction es as [|e es IH]; intros c; simpl; [by left|].
  destruct (render cmd e); [|by left].
  destruct (seen c (insertId e)) eqn:Hs; simpl; [apply IH|].
  intros [Hs'|Hin]%IH.
  - destruct (decide (id = insertId e)) as [->|Hne].
    + right. apply elem_of_cons. by left.
    + left. by rewrite seen_set_other in Hs'.
  - right. apply elem_of_cons. by right.
Qed.

(** Entries that all render, with ids of their own that are not seen, are
    all printed. *)
Lemma emitted_all c es :
  Forall (fun e => ∃ line, render cmd e = Ok line) es ->
  NoDup (insertId <$> es) ->
  Forall (fun e => seen c (insertId e) = false) es ->
  (emitted cmd c es).*1 = es.
Proof.
  revert c. induction es as [|e es IH]; intros c Hr Hnd Hu; simpl; [done|].
  apply Forall_cons in Hr as [[line Hline] Hr].
  apply Forall_cons in Hu as [Hu1 Hu].
  rewrite fmap_cons in Hnd. apply NoDup_cons in Hnd as [Hnotin Hnd].
  rewrite Hline, Hu1. simpl. f_equal. apply IH; [done..|].
  rewrite Forall_forall in Hu |- *. intros e' He'.
  rewrite seen_set_other; [by apply Hu|].
  intros Heq. apply Hnotin. rewrite <- Heq. by apply list_elem_of_fmap_2.
Qed.


Lemma emitted_none c es :
  Forall (fun e => seen c (insertId e) = true) es -> emitted cmd c es = [].
Proof.
  induction 1 as [|e es He _ IH]; simpl; [done|].
  destruct (render cmd e); [|done]. by rewrite He.
Qed.

Lemma emitted_length c es : length (emitted cmd c es) <= length es.
Proof.
  rewrite <- (length_fmap fst). apply sublist_length, emitted_sublist.
Qed.

(** *** One call of [printLogs] *)

Lemma printLogs_after batch w :
  after (printLogs cmd batch w) =
  {| stdout := stdout w ++ (emitted cmd (logEntryCache w) (kept batch)).*2;
     stderr := stderr w; spinner := spinner w; opened := opened w;
     logEntryCache := marked cmd (logEntryCache w) (kept batch) |}.
Proof. rewrite printLogs_each_take. apply printLogs_each_after. Qed.

Lemma printLogs_output batch w :
  output_of (printLogs cmd batch) w = (emitted cmd (logEntryCache w) (kept batch)).*2.
Proof. unfold output_of. rewrite printLogs_after. simpl. by rewrite drop_app_length. Qed.

Lemma printLogs_each_done es w :
  Forall (fun e => ∃ line, render cmd e = Ok line) es ->
  ∃ w', printLogs_each cmd es w = Done tt w'.
Proof.
  intros Hr. revert w. induction Hr as [|e es [line Hline] _ IH]; intros w; simpl.
  - by eexists.
  - unfold mbind, M_bind. rewrite printLogs_body_spec, Hline.
    destruct (seen (logEntryCache w) (insertId e)); apply IH.
Qed.

Lemma kept_sublist (batch : list LogEntry) : kept (Some batch) `sublist_of` reverse batch.
Proof. apply sublist_take. Qed.

Lemma kept_short (batch : list LogEntry) :
  length batch <= 50 -> kept (Some batch) = reverse batch.
Proof. intros Hl. unfold kept. simpl. apply take_ge. by rewrite length_reverse. Qed.


(** The 50 entries kept are the last 50 of the batch as it came. *)
Lemma kept_drop (batch : list LogEntry) :
  kept (Some batch) = reverse (drop (length batch - 50) batch).
Proof.
  unfold kept. simpl. destruct (decide (length batch <= 50)) as [Hle|Hgt].
  - replace (length batch - 50) with 0 by lia. rewrite drop_0.
    apply take_ge. by rewrite length_reverse.
  - rewrite <- (take_drop (length batch - 50) batch) at 1.
    rewrite reverse_app, take_app_length'; [done|].
    rewrite length_reverse, length_drop. lia.
Qed.

(** *** Sessions *)

Lemma seen_initial id : inherited id = None -> seen (logEntryCache initial) id = false.
Proof. intros Hi. unfold seen, get. simpl. by rewrite lookup_empty, Hi. Qed.

Lemma initial_ok : cache_ok (logEntryCache initial).
Proof. split; [apply lookup_empty|]. intros k b. simpl. by rewrite lookup_empty. Qed.

Lemma session_cons batch batches w :
  session cmd (batch :: batches) w = session cmd batches (after (printLogs cmd batch w)).
Proof. done. Qed.

Lemma session_ok batches w :
  cache_ok (logEntryCache w) -> cache_ok (logEntryCache (session cmd batches w)).
Proof.
  revert w. induction batches as [|b bs IH]; intros w Hok; [done|].
  rewrite session_cons. apply IH. rewrite printLogs_after. simpl. by apply marked_ok.
Qed.

(** The trace of a session: the entries printed, with their lines. *)
Lemma session_trace batches w :
  cache_ok (logEntryCache w) ->
  ∃ tr : list (LogEntry * string),
    stdout (session cmd batches w) = stdout w ++ tr.*2
    ∧ Forall2 (fun e line => render cmd e = Ok line) tr.*1 tr.*2
    ∧ NoDup (insertId <$> tr.*1)
    ∧ Forall (fun e => seen (logEntryCache w) (insertId e) = false) tr.*1
    ∧ Forall (fun e => ∃ b, Some b ∈ batches ∧ e ∈ b) tr.*1.
Proof.
  revert w. induction batches as [|b bs IH]; intros w Hok.
  { exists []. simpl. rewrite app_nil_r. repeat split; constructor. }
  rewrite session_cons, printLogs_after.
  set (c := logEntryCache w).
  set (tr1 := emitted cmd c (kept b)).
  match goal with |- context [session cmd bs ?w1] =>
    destruct (IH w1) as (tr2 & Hout & Hr & Hnd & Hun & Hfrom);
      [simpl; by apply marked_ok|]
  end.
  simpl in Hout, Hun.
  exists (tr1 ++ tr2). rewrite !fmap_app. split_and!.
  - by rewrite Hout, app_assoc.
  - apply Forall2_app; [apply emitted_render | done].
  - apply NoDup_app. split_and!; [by apply emitted_NoDup| |done].
    intros id (e1 & -> & He1)%list_elem_of_fmap (e2 & Hid & He2)%list_elem_of_fmap.
    rewrite Forall_forall in Hun. apply Hun in He2.
    rewrite <- Hid, (marked_emitted c (kept b) e1) in He2; done.
  - apply Forall_app. split; [apply emitted_unseen|].
    eapply Forall_impl; [exact Hun|]. intros e He. simpl in He.
    destruct (seen c (insertId e)) eqn:Hs; [|done].
    by rewrite (marked_mono _ _ _ Hs) in He.
  - apply Forall_app. split.
    + apply Forall_forall. intros e He.
      pose proof (elem_of_sublist _ _ _ He (emitted_sublist c (kept b))) as Hk.
      destruct b as [b|]; [|by apply elem_of_nil in Hk].
      exists b. split; [apply elem_of_cons; by left|].
      pose proof (elem_of_sublist _ _ _ Hk (kept_sublist b)) as Hrev.
      by rewrite elem_of_reverse in Hrev.
    + eapply Forall_impl; [exact Hfrom|]. intros e (b' & Hb' & He).
      exists b'. split; [apply elem_of_cons; by right | done].
Qed.

(** *** Order *)

Lemma StronglySorted_sublist {A} (R : relation A) (l1 l2 : list A) :
  l1 `sublist_of` l2 -> StronglySorted R l2 -> StronglySorted R l1.
Proof.
  induction 1 as [|x l1 l2 Hsub IH|x l1 l2 Hsub IH]; intros Hs; [done|..].
  - apply StronglySorted_inv in Hs as [Hs Hall]. constructor; [by apply IH|].
    rewrite Forall_forall in Hall |- *. intros y Hy. apply Hall.
    by eapply elem_of_sublist.
  - apply StronglySorted_inv in Hs as [Hs _]. by apply IH.
Qed.

Lemma StronglySorted_reverse {A} (R : relation A) (l : list A) :
  StronglySorted R l -> StronglySorted (flip R) (reverse l).
Proof.
  induction 1 as [|x l Hs IH Hall]; [constructor|].
  rewrite reverse_cons. apply StronglySorted_app_2; [|done|repeat constructor].
  intros y z Hy ->%list_elem_of_singleton. unfold flip.
  rewrite Forall_forall in Hall. apply Hall. by rewrite elem_of_reverse in Hy.
Qed.

Lemma sublist_filter_Forall {A} (P : A -> Prop) `{!∀ x, Decision (P x)} (l1 l2 : list A) :
  l1 `sublist_of` l2 -> Forall P l1 -> l1 `sublist_of` base.filter P l2.
Proof.
  induction 1 as [|x l1 l2 Hsub IH|x l1 l2 Hsub IH]; intros Hall; [done|..].
  - apply Forall_cons in Hall as [Hx Hall]. rewrite filter_cons_True by done.
    by apply sublist_skip, IH.
  - rewrite filter_cons. case_decide; [apply sublist_cons|]; by apply IH.
Qed.

Lemma Forall_sublist_of {A} (P : A -> Prop) (l1 l2 : list A) :
  l1 `sublist_of` l2 -> Forall P l2 -> Forall P l1.
Proof.
  intros Hsub. rewrite !Forall_forall. intros Hall x Hx.
  by eapply Hall, elem_of_sublist.
Qed.

Lemma sublist_fmap_of {A B} (f : A -> B) (l1 l2 : list A) :
  l1 `sublist_of` l2 -> f <$> l1 `sublist_of` f <$> l2.
Proof. induction 1; simpl; by constructor. Qed.

(** A batch whose entries all render, have ids of their own and are not
    seen: every entry the loop reaches is printed, oldest first. *)
Lemma printLogs_fresh (batch : list LogEntry) w :
  Forall (fun e => ∃ line, render cmd e = Ok line) batch ->
  NoDup (insertId <$> batch) ->
  Forall (fun e => seen (logEntryCache w) (insertId e) = false) batch ->
  rendered cmd (kept (Some batch)) (output_of (printLogs cmd (Some batch)) w).
Proof.
  intros Hr Hnd Hun. rewrite printLogs_output.
  pose proof (kept_sublist batch) as Hsub.
  rewrite <- (emitted_all (logEntryCache w) (kept (Some batch))) at 1.
  - apply emitted_render.
  - eapply Forall_sublist_of; [done|]. by apply Forall_reverse.
  - eapply sublist_NoDup; [|by apply sublist_fmap_of].
    by rewrite fmap_reverse, reverse_Permutation.
  - eapply Forall_sublist_of; [done|]. by apply Forall_reverse.
Qed.


Lemma rendered_fmap es (lines : list string) :
  rendered cmd es lines <-> render cmd <$> es = Ok <$> lines.
Proof.
  split.
  - induction 1 as [|e line es lines He _ IH]; [done|]. by rewrite !fmap_cons, He, IH.
  - revert lines. induction es as [|e es IH]; intros [|line lines]; simpl; try done.
    + constructor.
    + intros [= He Hes]. constructor; [done|by apply IH].
Qed.

(** Only the audit-log override can make rendering throw. *)
Lemma render_without_proto e :
  protoPayload e = None -> ∃ line, render cmd e = Ok line.
Proof.
  intros Hp. unfold render, entryFields.
  destruct (json cmd); [by eexists|].
  assert (is_AuditLog (selectPayload e) = false) as ->.
  { unfold selectPayload. rewrite Hp. by repeat case_match. }
  by eexists.
Qed.

(** *** The batch printer *)

(** C1. Dedup across batches. Whatever batches a session feeds to the printer
    from the empty cache, the console holds the lines of entries [es] drawn
    from those batches whose insertion ids are pairwise different: no id is
    printed twice, however many batches carry it. In particular a batch of
    at most 50 entries that all render, with ids of their own none of which
    names an inherited member, fetched twice in a row prints each entry
    once: as many lines as it has entries (3 for 3, not 6). *)
Theorem dedup_across_batches (batches : list (option (list LogEntry))) :
  (∃ es,
      rendered cmd es (stdout (session cmd batches initial))
      ∧ NoDup (insertId <$> es)
      ∧ Forall (fun e => ∃ b, Some b ∈ batches ∧ e ∈ b) es)
  ∧ (∀ batch : list LogEntry,
        length batch <= 50 ->
        NoDup (insertId <$> batch) ->
        Forall (fun e => inherited (insertId e) = None) batch ->
        Forall (fun e => ∃ line, render cmd e = Ok line) batch ->
        rendered cmd (reverse batch) (stdout (session cmd [Some batch; Some batch] initial))
        ∧ length (stdout (session cmd [Some batch; Some batch] initial)) = length batch).
Proof.
  split.
  - destruct (session_trace batches initial initial_ok)
      as (tr & Hout & Hr & Hnd & _ & Hfrom).
    exists tr.*1. simpl in Hout. by rewrite Hout.
  - intros batch Hlen Hnd Hown Hr.
    assert (Hun : Forall (fun e => seen (logEntryCache initial) (insertId e) = false) batch).
    { eapply Forall_impl; [exact Hown|]. intros e. apply seen_initial. }
    pose proof (printLogs_fresh batch initial Hr Hnd Hun) as Hfirst.
    rewrite printLogs_output, kept_short in Hfirst by done.
    change (logEntryCache initial) with (∅ : gmap string bool) in Hfirst.
    assert (Hall : (emitted cmd ∅ (reverse batch)).*1 = reverse batch).
    { rewrite <- (kept_short batch) by done.
      apply emitted_all.
      - eapply Forall_sublist_of; [apply kept_sublist|]. by apply Forall_reverse.
      - eapply sublist_NoDup; [|apply sublist_fmap_of, kept_sublist].
        by rewrite fmap_reverse, reverse_Permutation.
      - eapply Forall_sublist_of; [apply kept_sublist|]. by apply Forall_reverse. }
    assert (Hout : stdout (session cmd [Some batch; Some batch] initial)
                   = (emitted cmd ∅ (reverse batch)).*2).
    { unfold session. simpl. rewrite !printLogs_after. simpl.
      rewrite !kept_short by done.
      rewrite (emitted_none (marked cmd ∅ (reverse batch))), app_nil_r; [done|].
      apply Forall_forall. intros e He.
      apply marked_emitted; [apply initial_ok|]. by rewrite Hall. }
    rewrite Hout. split; [exact Hfirst|].
    apply Forall2_length in Hfirst. by rewrite <- Hfirst, length_reverse.
Qed.

(** C2. The cap. Whatever the batch (longer than 50, empty, or absent) and
    whatever the state of the cache, one call of [printLogs] writes at most
    50 lines, a line being one call of [console.log]. *)
Theorem at_most_50_lines (batch : option (list LogEntry)) w :
  length (output_of (printLogs cmd batch) w) <= 50.
Proof.
  rewrite printLogs_output, length_fmap.
  etrans; [apply emitted_length|]. unfold kept. rewrite length_take. lia.
Qed.

(** C3. Reversal. [before] is the order of timestamps, any relation at all.
    If every entry of the batch is later than all the entries that follow it
    (descending, as the upstream returns them), the lines printed are those
    of entries of the batch each of which is earlier than all that follow it
    (ascending, strictly so when [before] is strict). And a batch of at most
    50 entries that all render, with ids of their own that are not seen yet,
    is printed in full in the reverse of the order it came in: [T3,T2,T1]
    comes out as [T1,T2,T3], each entry once. *)
Theorem printed_oldest_first (before : relation string) (batch : list LogEntry) w :
  (StronglySorted (fun e1 e2 => before (timestamp e2) (timestamp e1)) batch ->
   ∃ es,
     es `sublist_of` reverse batch
     ∧ rendered cmd es (output_of (printLogs cmd (Some batch)) w)
     ∧ StronglySorted (fun e1 e2 => before (timestamp e1) (timestamp e2)) es)
  ∧ (length batch <= 50 ->
     NoDup (insertId <$> batch) ->
     Forall (fun e => seen (logEntryCache w) (insertId e) = false) batch ->
     Forall (fun e => ∃ line, render cmd e = Ok line) batch ->
     rendered cmd (reverse batch) (output_of (printLogs cmd (Some batch)) w)).
Proof.
  split.
  - intros Hdesc. exists (emitted cmd (logEntryCache w) (kept (Some batch))).*1.
    assert (Hsub : (emitted cmd (logEntryCache w) (kept (Some batch))).*1
                   `sublist_of` reverse batch)
      by (etrans; [apply emitted_sublist | apply kept_sublist]).
    split_and!; [done | rewrite printLogs_output; apply emitted_render |].
    eapply StronglySorted_sublist; [exact Hsub|].
    by apply (StronglySorted_reverse _ _ Hdesc).
  - intros Hlen Hnd Hun Hr. rewrite <- (kept_short batch) by done.
    by apply printLogs_fresh.
Qed.

(** C9, as amended. Of a batch returned newest first, [printLogs] only ever
    prints entries among the last 50 as they came, that is the 50 oldest,
    in the reverse of the order they came in (oldest first). When the batch
    has more than 50 entries, all of which render and have ids of their own
    that are not seen yet, exactly those 50 are printed, and the entries
    before them, the newest of the burst, are dropped without a trace: the
    call completes normally, reports nothing, and leaves their ids
    unseen. *)
Theorem cap_drops_the_newest (batch : list LogEntry) w :
  let newest := take (length batch - 50) batch in
  let oldest := drop (length batch - 50) batch in
  (∃ es,
      es `sublist_of` reverse oldest
      ∧ rendered cmd es (output_of (printLogs cmd (Some batch)) w))
  ∧ (50 < length batch ->
     NoDup (insertId <$> batch) ->
     Forall (fun e => seen (logEntryCache w) (insertId e) = false) batch ->
     Forall (fun e => ∃ line, render cmd e = Ok line) batch ->
     length oldest = 50
     ∧ rendered cmd (reverse oldest) (output_of (printLogs cmd (Some batch)) w)
     ∧ (∃ w', printLogs cmd (Some batch) w = Done tt w' ∧ stderr w' = stderr w)
     ∧ Forall (fun e =>
           seen (logEntryCache (after (printLogs cmd (Some batch) w))) (insertId e) = false)
         newest).
Proof.
  intros newest oldest. split.
  { exists (emitted cmd (logEntryCache w) (kept (Some batch))).*1. split.
    - unfold oldest. rewrite <- kept_drop. apply emitted_sublist.
    - rewrite printLogs_output. apply emitted_render. }
  intros Hlen Hnd Hun Hr. split_and!.
  - unfold oldest. rewrite length_drop. lia.
  - unfold oldest. rewrite <- kept_drop. by apply printLogs_fresh.
  - destruct (printLogs_each_done (kept (Some batch)) w) as [w' Hw'].
    { eapply Forall_sublist_of; [apply kept_sublist|]. by apply Forall_reverse. }
    exists w'. rewrite printLogs_each_take. split; [exact Hw'|].
    change (kept (Some batch)) with (take 50 (reverse (default [] (Some batch)))) in Hw'.
    rewrite <- printLogs_each_take in Hw'.
    pose proof (printLogs_after (Some batch) w) as Ha.
    rewrite Hw' in Ha. simpl in Ha. by rewrite Ha.
  - rewrite printLogs_after. simpl. apply Forall_forall. intros e He.
    destruct (seen (marked cmd (logEntryCache w) (kept (Some batch))) (insertId e)) eqn:Hs;
      [|done].
    apply marked_seen_inv in Hs as [Hs|Hin].
    + rewrite Forall_forall in Hun. rewrite Hun in Hs; [done|].
      by eapply elem_of_sublist, sublist_take.
    + exfalso.
      apply list_elem_of_fmap in Hin as (e' & Hid & He').
      pose proof (elem_of_sublist _ _ _ He' (emitted_sublist _ _)) as Hk.
      rewrite kept_drop, elem_of_reverse in Hk.
      rewrite <- (take_drop (length batch - 50) batch), fmap_app in Hnd.
      apply NoDup_app in Hnd as (_ & Hdisj & _).
      apply (Hdisj (insertId e)); [by apply list_elem_of_fmap_2|].
      rewrite Hid. by apply list_elem_of_fmap_2.
Qed.

(** C10. Inherited names. At every point [w] of a session that started from
    the empty cache, an id that names a member inherited from
    Object.prototype (["toString"], ["constructor"], ["hasOwnProperty"],
    ...) counts as seen, its first occurrence included; and the lines any
    further batch prints are those of entries of that batch, in reversed
    order, none of which has such an id: an entry with such an id is never
    printed. *)
Theorem inherited_ids_never_printed (batches : list (option (list LogEntry))) :
  let w := session cmd batches initial in
  (∀ id, is_Some (inherited id) -> seen (logEntryCache w) id = true)
  ∧ (∀ batch : list LogEntry,
        ∃ es,
          es `sublist_of` reverse batch
          ∧ Forall (fun e => inherited (insertId e) = None) es
          ∧ rendered cmd es (output_of (printLogs cmd (Some batch)) w)).
Proof.
  intros w.
  assert (Hok : cache_ok (logEntryCache w)) by apply session_ok, initial_ok.
  split; [intros id; by apply inherited_seen|].
  intros batch. exists (emitted cmd (logEntryCache w) (kept (Some batch))).*1. split_and!.
  - etrans; [apply emitted_sublist | apply kept_sublist].
  - eapply Forall_impl; [apply emitted_unseen|]. intros e He. simpl in He.
    destruct (inherited (insertId e)) eqn:Hi; [|done].
    rewrite inherited_seen in He; [done..|by eexists].
  - rewrite printLogs_output. apply emitted_render.
Qed.

(** *** The entry renderer *)

(** C5. The audit-log override. Outside JSON mode, when the payload selected
    for an entry is the proto payload object and its type tag is the one of
    an audit-log record, the line rendered is made of the formatted
    severity, the timestamp, the audit method name padded to 15 characters
    in the place of the function name, and the setup message (padded like
    every string payload) in the place of the payload. A record that names
    no method has no line: padding the missing name throws. *)
Theorem audit_log_line e (p : ProtoPayload) :
  json cmd = false ->
  selectPayload e = PObject p ->
  at_type p = Some AuditLog_type ->
  render cmd e =
  match methodName p with
  | Some m =>
      Ok (coloredSeverity (severity e) +:+ " " +:+ timestamp e +:+ " " +:+ padEnd m 15
          +:+ " " +:+ (if truthy LOG_STACKDRIVER_SETUP
                       then padEnd LOG_STACKDRIVER_SETUP 20 else LOG_STACKDRIVER_SETUP))
  | None => Throw TypeError
  end.
Proof.
  intros Hjson Hsel Htype.
  assert (Hp : protoPayload e = Some p).
  { unfold selectPayload in Hsel.
    repeat match type of Hsel with
           | context [match ?x with _ => _ end] => destruct x; try discriminate
           end; congruence. }
  unfold render, entryFields. rewrite Hjson, Hsel. simpl.
  rewrite Htype, String.eqb_refl, Hp. simpl.
  destruct (methodName p) as [m|]; simpl; [|done].
  unfold line_of. by destruct (truthy LOG_STACKDRIVER_SETUP).
Qed.

(** A JSON payload is printed as a string, so its type tag is never looked
    at: the override is for proto payloads only. *)
Lemma selectPayload_json_is_string e :
  textPayload e = None ->
  (∃ j, jsonPayload e = Some j ∧ truthy (substr (JSON_stringify j) 0 255) = true) ->
  is_AuditLog (selectPayload e) = false.
Proof.
  intros Ht (j & Hj & Hs). unfold selectPayload. by rewrite Ht, Hj, Hs.
Qed.

(** *** The severity formatter *)

Lemma coloredStringMap_known severity k colour :
  (k, colour) ∈ known_severities ->
  coloredStringMap severity !! k = Some (chalk colour severity).
Proof.
  unfold known_severities, coloredStringMap.
  rewrite !elem_of_cons, elem_of_nil.
  intros [[= -> ->]|[[= -> ->]|[[= -> ->]|[[= -> ->]|[[= -> ->]|[]]]]]];
    rewrite ?lookup_insert_ne by done; apply lookup_insert_eq.
Qed.

Lemma coloredStringMap_other severity k :
  (∀ colour, (k, colour) ∉ known_severities) ->
  coloredStringMap severity !! k = None.
Proof.
  intros Hk. unfold coloredStringMap.
  rewrite !lookup_insert_ne; [apply lookup_empty|..];
    intros <-; eapply Hk; unfold known_severities;
    rewrite !elem_of_cons; eauto 10.
Qed.

(** [coloredSeverity] is a function of the severity alone. With a chalk
    that gives a non-empty label to a non-empty text, each of the five
    known severities is formatted as chalk's label of its colour, and every
    other severity that does not name a member inherited from
    Object.prototype is formatted as itself; in both cases [padEnd] brings
    the result to 20 characters. *)
Theorem severity_label :
  (∀ colour s, truthy s = true -> truthy (chalk colour s) = true) ->
  (∀ severity colour,
      (severity, colour) ∈ known_severities ->
      coloredSeverity severity = padEnd (chalk colour severity) 20)
  ∧ (∀ severity,
        (∀ colour, (severity, colour) ∉ known_severities) ->
        inherited severity = None ->
        coloredSeverity severity = padEnd severity 20).
Proof.
  intros Hchalk. split.
  - intros severity colour Hin. unfold coloredSeverity, get.
    rewrite (coloredStringMap_known _ _ _ Hin). unfold or_else.
    rewrite Hchalk; [done|].
    revert Hin. unfold known_severities. rewrite !elem_of_cons, elem_of_nil.
    by intros [[= -> _]|[[= -> _]|[[= -> _]|[[= -> _]|[[= -> _]|[]]]]]].
  - intros severity Hnot Hin. unfold coloredSeverity, get.
    by rewrite coloredStringMap_other, Hin.
Qed.



End Properties.

(** *** Fetching *)

Lemma MakeDate_parts (t s : Z) :
  MakeDate (Day t) (MakeTime (HourFromTime t) (MinFromTime t) s (msFromTime t))
  = (t + (s - SecFromTime t) * msPerSecond)%Z.
Proof.
  unfold MakeDate, MakeTime, Day, HourFromTime, MinFromTime, SecFromTime, msFromTime,
    msPerDay, msPerHour, msPerMinute, msPerSecond.
  Z.div_mod_to_equations. lia.
Qed.

Section Fetching.
Context `{Runtime} `{Utils}.
Variable logError : string -> M unit.
Variable (cmd : Cmd) (projectId : string) (oauthSettings : ClaspToken).

(** What [setSeconds] leaves in [startDate]: the local wall-clock time, one
    minute back, read as an instant again. *)
Lemma watch_tick_startDate (now : Z) :
  setSeconds LocalTZA (TimeValue now)
    ((fun seconds => seconds - (10 * POLL_INTERVAL) / 1000)%Z
       <$> getSeconds LocalTZA (TimeValue now))
  = TimeClip (UTC LocalTZA (LocalTime LocalTZA now - 10 * POLL_INTERVAL)%Z).
Proof.
  unfold setSeconds, getSeconds. simpl. rewrite MakeDate_parts. do 2 f_equal.
  unfold POLL_INTERVAL, msPerSecond. change (10 * 6000 / 1000)%Z with 60%Z. lia.
Qed.

(** A tick at clock reading [now] issues a fetch whose filter is
    [timestamp >= "<ISO8601>"], the lower bound being the local wall-clock
    time of the tick, 60 seconds back, read as an instant again with the
    offset the host has at that local time. *)
Lemma watch_tick_filter (now : Z) w :
  (Z.abs (UTC LocalTZA (LocalTime LocalTZA now - 10 * POLL_INTERVAL)) <= 8640000000000000)%Z ->
  ∃ p w',
    watch_tick logError cmd projectId oauthSettings now w = Done p w'
    ∧ filter (request p) =
      "timestamp >= " +:+ dquote
      +:+ iso8601 (UTC LocalTZA (LocalTime LocalTZA now - 10 * POLL_INTERVAL)) +:+ dquote.
Proof.
  intros Hrange. unfold watch_tick. rewrite watch_tick_startDate.
  unfold TimeClip. apply Z.leb_le in Hrange. rewrite Hrange.
  unfold fetchAndPrintLogs, mbind, M_bind, set_spinner, modify, lift, mret, M_ret.
  simpl. eauto.
Qed.

(** The lower bound is the instant [now - 10 * POLL_INTERVAL] (60000 ms
    before [now]) when that instant is a valid time value and the host's
    offset from UTC is the same at the local time one minute back as it is
    now. *)
Theorem watch_tick_lower_bound (now : Z) w :
  (Z.abs (now - 10 * POLL_INTERVAL) <= 8640000000000000)%Z ->
  LocalTZA (LocalTime LocalTZA now - 10 * POLL_INTERVAL)%Z false = LocalTZA now true ->
  ∃ p w',
    watch_tick logError cmd projectId oauthSettings now w = Done p w'
    ∧ filter (request p) =
      "timestamp >= " +:+ dquote +:+ iso8601 (now - 10 * POLL_INTERVAL) +:+ dquote.
Proof.
  intros Hrange Hzone. unfold watch_tick. rewrite watch_tick_startDate.
  unfold UTC. rewrite Hzone. unfold LocalTime.
  replace (now + LocalTZA now true - 10 * POLL_INTERVAL - LocalTZA now true)%Z
    with (now - 10 * POLL_INTERVAL)%Z by lia.
  unfold TimeClip. apply Z.leb_le in Hrange. rewrite Hrange.
  unfold fetchAndPrintLogs, mbind, M_bind, set_spinner, modify, lift, mret, M_ret.
  simpl. eauto.
Qed.

(** In watch mode the timer runs [watch_tick]. *)
Lemma logs_watch_mode :
  open cmd = false -> watch cmd = true ->
  logs logError cmd projectId oauthSettings
  = Watching POLL_INTERVAL (watch_tick logError cmd projectId oauthSettings).
Proof. intros Hopen Hwatch. unfold logs. by rewrite Hopen, Hwatch. Qed.

(** Every answered fetch first echoes its filter on the console (line 462);
    with status 200 the lines of the batch follow. *)
Lemma answered_200_output (startDate : option Date) (text : string)
    (entries : option (list LogEntry)) w p w' :
  fetchAndPrintLogs logError cmd projectId oauthSettings startDate w = Done p w' ->
  output_of (resume p {| status := 200; statusText := text; data_entries := entries |}) w'
  = filter (request p) :: output_of (printLogs cmd entries) w'.
Proof.
  unfold fetchAndPrintLogs, mbind, M_bind, set_spinner, modify, mret, M_ret.
  destruct startDate as [[t|]|]; simpl; [|done|]; intros [= <- <-]; simpl;
    unfold output_of; simpl; rewrite !printLogs_after; simpl;
    rewrite <- app_assoc, !drop_app_length; done.
Qed.

(** C8, as amended. The period of the watch timer is the constant
    [POLL_INTERVAL], 6000 ms, for every options object: [logs] reads the
    flags [open] and [watch] and nothing else of [cmd], and a
    [pollIntervalMs] among its other properties changes nothing. *)
Theorem watch_interval_is_fixed :
  interval_of (logs logError cmd projectId oauthSettings) =
  if open cmd then None else if watch cmd then Some 6000%Z else None.
Proof. unfold logs. by destruct (open cmd), (watch cmd). Qed.

End Fetching.

Section Reporting.
Context `{Runtime} `{Utils}.
Variable (cmd : Cmd) (projectId : string).

(** C6. A fetch answered with status 403 under local credentials, the
    reporter being one that writes its description on the error stream and
    ends the process: the switch is entered at [case 403], the local
    permission-denied message is reported, and that is the end. The error
    stream gets that one message; neither the other permission-denied
    message nor the message with the raw status code and text is written.
    This holds for the one-shot fetch and for the fetch of a tick alike. *)
Theorem forbidden_local_reported_once (logError : string -> M unit) (t : Z)
    (text : string) (entries : option (list LogEntry)) w :
  (∀ description w, ∃ code w',
      logError description w = Exited code w'
      ∧ stderr w' = stderr w ++ [description]) ->
  let logs := {| status := 403; statusText := text; data_entries := entries |} in
  let fetch := fetchAndPrintLogs logError cmd projectId {| isLocalCreds := true |} in
  ∀ startDate, startDate = None ∨ startDate = Some (TimeValue t) ->
    ∃ code w',
      answered (fetch startDate) logs w = Exited code w'
      ∧ stderr w' = stderr w ++ [ERROR_PERMISSION_DENIED_LOCAL].
Proof.
  intros Hexit logs fetch startDate [-> | ->];
    unfold answered, fetch, fetchAndPrintLogs, mbind, M_bind; simpl;
    unfold mbind, M_bind;
    match goal with |- context [logError ERROR_PERMISSION_DENIED_LOCAL ?w1] =>
      destruct (Hexit ERROR_PERMISSION_DENIED_LOCAL w1) as (code & w' & -> & Herr)
    end; exists code, w'; (split; [done|]); by rewrite Herr.
Qed.

(** Were the reporter to write and return, [case 403] having no [break],
    the message with the raw status code and text would follow the local
    one. *)
Lemma forbidden_local_reported_twice (t : Z) (text : string)
    (entries : option (list LogEntry)) w :
  let logs := {| status := 403; statusText := text; data_entries := entries |} in
  let fetch := fetchAndPrintLogs logError_reporting cmd projectId {| isLocalCreds := true |} in
  stderr (after (answered (fetch None) logs w))
  = stderr w ++ [ERROR_PERMISSION_DENIED_LOCAL; "(403) Error: " +:+ text]
  ∧ stderr (after (answered (fetch (Some (TimeValue t))) logs w))
    = stderr w ++ [ERROR_PERMISSION_DENIED_LOCAL; "(403) Error: " +:+ text].
Proof.
  split; unfold answered, fetchAndPrintLogs; simpl; by rewrite <- app_assoc.
Qed.

End Reporting.

(** ** More on the batch printer and the renderer *)

(** The first [n] characters of a string. *)
Lemma substr_prefix (s : string) (n : nat) :
  ∃ rest, s = substr s 0 n +:+ rest ∧ String.length (substr s 0 n) = min n (String.length s).
Proof.
  unfold substr. revert n. induction s as [|ch s IH]; intros [|n]; simpl.
  - by exists "".
  - by exists "".
  - by exists (String ch s).
  - destruct (IH n) as (rest & Hrest & Hlen). exists rest. split; [|by rewrite Hlen].
    change (String ch (String.substring 0 n s) +:+ rest)
      with (String ch (String.substring 0 n s +:+ rest)).
    by rewrite <- Hrest.
Qed.

Section Printing.
Context `{Runtime} `{Utils} (cmd : Cmd).
Implicit Types (c : gmap string bool) (es : list LogEntry) (e : LogEntry) (w : World).

(** A cache that has every id a list would leave marked prints nothing of
    the list and stays as it is. *)
Lemma emitted_above c c' es :
  cache_ok c ->
  (∀ id, seen (marked cmd c es) id = true -> seen c' id = true) ->
  emitted cmd c' es = [] ∧ marked cmd c' es = c'.
Proof.
  revert c. induction es as [|e es IH]; intros c Hok Habove; simpl; [done|].
  simpl in Habove. destruct (render cmd e); [|done].
  destruct (seen c (insertId e)) eqn:Hs.
  - rewrite Habove; [by eapply IH|]. by apply marked_mono.
  - rewrite Habove.
    + eapply IH; [by apply set_ok|done].
    + by apply marked_mono, seen_set_same.
Qed.

(** The loop stops at the first entry that cannot be rendered. *)
Lemma printLogs_each_throws pre e post err w :
  Forall (fun e => ∃ line, render cmd e = Ok line) pre ->
  render cmd e = Throw err ->
  printLogs_each cmd (pre ++ e :: post) w = Thrown err (after (printLogs_each cmd pre w)).
Proof.
  intros Hpre He. revert w. induction Hpre as [|e0 pre [line Hline] _ IH]; intros w; simpl.
  - unfold mbind, M_bind. by rewrite printLogs_body_spec, He.
  - unfold mbind, M_bind. rewrite printLogs_body_spec, Hline.
    destruct (seen (logEntryCache w) (insertId e0)); apply IH.
Qed.

(** X1. [printLogs] touches the console's standard output and the cache
    only: the error stream, the spinner and the browser are as they were,
    and the lines are appended to what was printed before. *)
Theorem printLogs_frame (batch : option (list LogEntry)) w :
  let w' := after (printLogs cmd batch w) in
  stderr w' = stderr w ∧ spinner w' = spinner w ∧ opened w' = opened w
  ∧ stdout w' = stdout w ++ output_of (printLogs cmd batch) w.
Proof.
  intros w'. unfold w'. rewrite printLogs_output, printLogs_after. done.
Qed.

(** X2. The cache only grows: an id that is seen stays seen through any
    sequence of batches. *)
Theorem seen_persists (batches : list (option (list LogEntry))) w id :
  seen (logEntryCache w) id = true ->
  seen (logEntryCache (session cmd batches w)) id = true.
Proof.
  revert w. induction batches as [|b bs IH]; intros w Hs; [done|].
  rewrite session_cons. apply IH. rewrite printLogs_after. simpl. by apply marked_mono.
Qed.

(** X3. Printing is idempotent: at any point of a session, a batch that has
    just been printed prints nothing when printed again, and leaves the
    cache as it is. *)
Theorem printLogs_twice_silent (batches : list (option (list LogEntry)))
    (batch : option (list LogEntry)) :
  let w := after (printLogs cmd batch (session cmd batches initial)) in
  output_of (printLogs cmd batch) w = []
  ∧ logEntryCache (after (printLogs cmd batch w)) = logEntryCache w.
Proof.
  intros w. unfold w. rewrite printLogs_output, !printLogs_after. simpl.
  destruct (emitted_above (logEntryCache (session cmd batches initial))
              (marked cmd (logEntryCache (session cmd batches initial)) (kept batch))
              (kept batch)) as [-> ->]; [apply session_ok, initial_ok|done|done].
Qed.

(** X4. Marking and printing go together: after a batch, the ids seen are
    those seen before and those of the entries whose lines were printed. *)
Theorem marks_are_prints (batches : list (option (list LogEntry))) (batch : list LogEntry) :
  let w := session cmd batches initial in
  let w' := after (printLogs cmd (Some batch) w) in
  ∃ es,
    es `sublist_of` reverse batch
    ∧ rendered cmd es (output_of (printLogs cmd (Some batch)) w)
    ∧ ∀ id, seen (logEntryCache w') id = true
            <-> seen (logEntryCache w) id = true ∨ id ∈ insertId <$> es.
Proof.
  intros w w'.
  assert (Hok : cache_ok (logEntryCache w)) by apply session_ok, initial_ok.
  exists (emitted cmd (logEntryCache w) (kept (Some batch))).*1. split_and!.
  - etrans; [apply emitted_sublist | apply kept_sublist].
  - rewrite printLogs_output. apply emitted_render.
  - intros id. unfold w'. rewrite printLogs_after. simpl. split.
    + apply marked_seen_inv.
    + intros [Hs|(e & -> & He)%list_elem_of_fmap].
      * by apply marked_mono.
      * by apply marked_emitted.
Qed.

(** X5. A batch with an entry that cannot be rendered, followed by fewer
    than 50 older entries that can: the older entries are printed and
    marked as if they were the whole batch, then the exception leaves
    [printLogs]; the entry itself and the newer ones are neither printed
    nor marked. *)
Theorem printLogs_throws (newer older : list LogEntry) e err w :
  length older < 50 ->
  Forall (fun e => ∃ line, render cmd e = Ok line) older ->
  render cmd e = Throw err ->
  printLogs cmd (Some (newer ++ e :: older)) w
  = Thrown err (after (printLogs cmd (Some older) w)).
Proof.
  intros Hlen Hr He. rewrite !printLogs_each_take. simpl.
  rewrite reverse_app, reverse_cons, <- app_assoc. simpl.
  rewrite take_app_ge by (rewrite length_reverse; lia).
  rewrite length_reverse.
  destruct (50 - length older) as [|n] eqn:Hn; [lia|]. simpl.
  rewrite (take_ge (reverse older)) by (rewrite length_reverse; lia).
  apply printLogs_each_throws; [by apply Forall_reverse | done].
Qed.

(** X6. Outside JSON mode a non-empty text payload is what is printed,
    padded to 20 characters, whatever the other payloads are. *)
Theorem text_payload_wins e (t : string) :
  json cmd = false ->
  textPayload e = Some t ->
  truthy t = true ->
  render cmd e =
  Ok (coloredSeverity (severity e) +:+ " " +:+ timestamp e +:+ " "
      +:+ functionName_of e +:+ " " +:+ padEnd t 20).
Proof.
  intros Hjson Ht Htruthy. unfold render, entryFields, selectPayload.
  rewrite Hjson, Ht, Htruthy. simpl. by rewrite Htruthy.
Qed.

(** X7. Outside JSON mode and without a text payload, a JSON payload is
    printed as the first 255 characters of its serialization. *)
Theorem json_payload_truncated e (j : list (string * JsonValue)) :
  json cmd = false ->
  textPayload e = None ∨ textPayload e = Some "" ->
  jsonPayload e = Some j ->
  truthy (JSON_stringify j) = true ->
  ∃ shown rest,
    JSON_stringify j = shown +:+ rest
    ∧ String.length shown = min 255 (String.length (JSON_stringify j))
    ∧ render cmd e =
      Ok (coloredSeverity (severity e) +:+ " " +:+ timestamp e +:+ " "
          +:+ functionName_of e +:+ " " +:+ padEnd shown 20).
Proof.
  intros Hjson Htext Hj Htruthy.
  destruct (substr_prefix (JSON_stringify j) 255) as (rest & Hrest & Hlen).
  exists (substr (JSON_stringify j) 0 255), rest. split_and!; [done..|].
  assert (Hshown : truthy (substr (JSON_stringify j) 0 255) = true).
  { revert Htruthy. unfold substr. by destruct (JSON_stringify j). }
  unfold render, entryFields, selectPayload. rewrite Hjson, Hj.
  destruct Htext as [-> | ->]; simpl; rewrite Hshown; simpl; by rewrite Hshown.
Qed.

End Printing.

(** ** More on the fetch *)

Section Answers.
Context `{Runtime} `{Utils}.
Variable logError : string -> M unit.
Variable (cmd : Cmd) (projectId : string) (oauthSettings : ClaspToken).
Implicit Types (w : World).

(** X10. A fetch answered with status 200 stops the spinner, echoes the
    filter and prints the entries; nothing is reported on the error
    stream. *)
Theorem ok_answer (startDate : option Date) (text : string)
    (entries : option (list LogEntry)) w p w' :
  fetchAndPrintLogs logError cmd projectId oauthSettings startDate w = Done p w' ->
  let logs := {| status := 200; statusText := text; data_entries := entries |} in
  let w'' := after (resume p logs w') in
  stdout w'' = stdout w ++ filter (request p) :: output_of (printLogs cmd entries) w
  ∧ stderr w'' = stderr w
  ∧ spinner w'' = None
  ∧ opened w'' = opened w.
Proof.
  unfold fetchAndPrintLogs, mbind, M_bind, set_spinner, modify, mret, M_ret.
  destruct startDate as [[t|]|]; simpl; [|done|]; intros [= <- <-]; simpl;
    rewrite !printLogs_output, !printLogs_after; simpl;
    by rewrite <- app_assoc.
Qed.

(** Reports that leave the standard output and the cache alone leave them
    alone through the whole fall-through. *)
Lemma fall_through_quiet (reports : list (M unit)) w :
  Forall (fun m : M unit => ∀ w, stdout (after (m w)) = stdout w
                          ∧ logEntryCache (after (m w)) = logEntryCache w) reports ->
  stdout (after (fall_through reports w)) = stdout w
  ∧ logEntryCache (after (fall_through reports w)) = logEntryCache w.
Proof.
  intros Hq. revert w. induction Hq as [|m ms Hm _ IH]; intros w; simpl; [done|].
  unfold mbind, M_bind. destruct (Hm w) as [Hout Hcache].
  destruct (m w) as [[] w1|e w1|c w1]; simpl in *; [|done..].
  destruct (IH w1) as [-> ->]. done.
Qed.

(** X11. A fetch answered with another status prints no entry and marks
    none, whatever the answer carries: only the filter is echoed. The
    reporter is any that leaves the standard output and the cache alone. *)
Theorem failed_fetch_prints_no_entries (startDate : option Date) (logs : ListResponse) w p w' :
  (∀ description w, stdout (after (logError description w)) = stdout w
                    ∧ logEntryCache (after (logError description w)) = logEntryCache w) ->
  fetchAndPrintLogs logError cmd projectId oauthSettings startDate w = Done p w' ->
  status logs ≠ 200%Z ->
  output_of (resume p logs) w' = [filter (request p)]
  ∧ logEntryCache (after (resume p logs w')) = logEntryCache w.
Proof.
  intros Hquiet Hfetch Hstatus.
  assert (Hneq : (status logs =? 200)%Z = false) by by apply Z.eqb_neq.
  revert Hfetch.
  unfold fetchAndPrintLogs, mbind, M_bind, set_spinner, modify, mret, M_ret.
  destruct startDate as [[t|]|]; simpl; [|done|]; intros [= <- <-]; simpl;
    rewrite Hneq; simpl; unfold output_of; simpl;
    match goal with |- context [fall_through ?l ?w0] =>
      destruct (fall_through_quiet l w0) as [-> ->]
    end; simpl; rewrite ?drop_app_length; try done;
    apply Forall_drop; repeat constructor; intros; apply Hquiet.
Qed.
End Answers.

(** ** The other commands: clone, list, undeploy, apis, setting *)

Lemma String_split_nonempty (sep : ascii) (s : string) : String_split sep s ≠ [].
Proof.
  destruct s as [|ch s]; simpl; [done|].
  destruct (Ascii.eqb ch sep); [done|].
  by destruct (String_split sep s).
Qed.

(** Splitting distributes over a separator. *)
Lemma String_split_app (sep : ascii) (a b : string) :
  String_split sep (a +:+ String sep b) = String_split sep a ++ String_split sep b.
Proof.
  induction a as [|ch a IH]; simpl.
  - by rewrite Ascii.eqb_refl.
  - destruct (Ascii.eqb ch sep); [by rewrite IH|].
    rewrite IH.
    pose proof (String_split_nonempty sep a) as Hne.
    by destruct (String_split sep a).
Qed.

Lemma String_split_free (sep : ascii) (s : string) :
  String_indexOf sep s = None -> String_split sep s = [s].
Proof.
  induction s as [|ch s IH]; simpl; [done|].
  destruct (Ascii.eqb ch sep); [done|].
  destruct (String_indexOf sep s); [done|].
  intros _. by rewrite IH.
Qed.

(** Joining segments that hold no slash and splitting at the slashes gives
    the segments back. *)
Lemma String_split_join (segments : list string) :
  segments ≠ [] ->
  Forall (fun s => String_indexOf slash s = None) segments ->
  String_split slash (Array_join "/" segments) = segments.
Proof.
  induction segments as [|s segments IH]; [done|].
  intros _ Hfree. apply Forall_cons in Hfree as [Hs Hfree].
  destruct segments as [|s' segments].
  - by apply String_split_free.
  - change (Array_join "/" (s :: s' :: segments))
      with (s +:+ String slash (Array_join "/" (s' :: segments))).
    rewrite String_split_app, String_split_free by done.
    by rewrite IH.
Qed.

Lemma append_length (a b : string) :
  String.length (a +:+ b) = String.length a + String.length b.
Proof. induction a; simpl; [done|]. by rewrite IHa. Qed.

Lemma Array_join_cons_length (s : string) (segments : list string) :
  segments ≠ [] ->
  String.length (Array_join "/" (s :: segments))
  = String.length s + 1 + String.length (Array_join "/" segments).
Proof.
  destruct segments as [|s' segments]; [done|]. intros _.
  change (Array_join "/" (s :: s' :: segments))
    with (s +:+ String slash (Array_join "/" (s' :: segments))).
  rewrite append_length. simpl. lia.
Qed.

(** A path of two or more segments is longer than each of them. *)
Lemma Array_join_longer (segments : list string) (s : string) :
  s ∈ segments -> 2 <= length segments ->
  String.length s < String.length (Array_join "/" segments).
Proof.
  induction segments as [|s0 segments IH]; [by intros ?%elem_of_nil|].
  intros Hin Hlen. simpl in Hlen.
  destruct segments as [|s1 segments]; [simpl in Hlen; lia|].
  rewrite Array_join_cons_length by done.
  apply elem_of_cons in Hin as [->|Hin]; [lia|].
  destruct segments as [|s2 segments].
  - apply list_elem_of_singleton in Hin as ->. simpl. lia.
  - specialize (IH Hin). simpl in IH. simpl length in IH.
    assert (String.length s < String.length (Array_join "/" (s1 :: s2 :: segments))) by (apply IH; lia).
    lia.
Qed.

Lemma or_else_empty (s : string) : or_else s "" = s.
Proof. unfold or_else, truthy. by destruct (String.eqb_spec s ""). Qed.

Lemma substr_all (s rest : string) :
  substr (s +:+ rest) 0 (String.length s) = s.
Proof.
  unfold substr. induction s as [|ch s IH]; simpl.
  - by destruct rest.
  - by rewrite IH.
Qed.

Lemma String_indexOf_first (ch : ascii) (label rest : string) :
  String_indexOf ch label = None ->
  String_indexOf ch (label +:+ String ch rest) = Some (String.length label).
Proof.
  induction label as [|c label IH]; simpl.
  - by rewrite Ascii.eqb_refl.
  - destruct (Ascii.eqb c ch); [done|].
    destruct (String_indexOf ch label); [done|].
    intros _. by rewrite IH.
Qed.

Lemma String_indexOf_append_None (ch : ascii) (a : string) :
  String_indexOf ch a = None -> String_indexOf ch (a +:+ "") = None.
Proof.
  induction a as [|c a IH]; simpl; [done|].
  destruct (Ascii.eqb c ch); [done|].
  destruct (String_indexOf ch a); [done|]. intros _. by rewrite IH.
Qed.

(** The text before the first occurrence of a character. *)
Lemma before_first_spec (ch : ascii) (label rest : string) :
  String_indexOf ch label = None ->
  before_first ch (label +:+ String ch rest) = label.
Proof.
  intros Hfree. unfold before_first.
  rewrite String_indexOf_first by done. apply substr_all.
Qed.

Lemma filter_none {A} (P : A -> Prop) `{!forall x, Decision (P x)} (l : list A) :
  Forall (fun x => ¬ P x) l -> base.filter P l = [].
Proof.
  induction 1 as [|x l Hx _ IH]; [done|].
  by rewrite filter_cons_False.
Qed.

Section CommandProperties.
Context `{Texts}.
Variable logError : option string -> option string -> T unit.

(** X12. A script id of 57 characters is saved and fetched twice. *)
Theorem clone_bare_id_twice (scriptId : string) (versionNumber : option Z) :
  String.length scriptId = 57 ->
  clone_given scriptId versionNumber
  = ([ SpinnerTitle LOG_CLONING; SaveProject scriptId None;
       FetchProject scriptId "" versionNumber;
       SpinnerTitle LOG_CLONING; SaveProject scriptId None;
       FetchProject scriptId "" versionNumber ], Returned tt).
Proof.
  intros Hlen. unfold clone_given. by rewrite Hlen.
Qed.

(** X13. Given a path (a URL) whose first segment of 57 characters is [id],
    clone saves and fetches [id], once. *)
Theorem clone_url_extracts_id (before after : list string) (id : string)
    (versionNumber : option Z) :
  Forall (fun s => String_indexOf slash s = None ∧ String.length s ≠ 57) before ->
  String_indexOf slash id = None -> String.length id = 57 ->
  Forall (fun s => String_indexOf slash s = None) after ->
  before ++ after ≠ [] ->
  clone_given (Array_join "/" (before ++ id :: after)) versionNumber
  = ([ SpinnerTitle LOG_CLONING; SaveProject id None;
       FetchProject id "" versionNumber ], Returned tt).
Proof.
  intros Hbefore Hid Hlen Hafter Hne.
  assert (String.length (Array_join "/" (before ++ id :: after)) ≠ 57) as Hurl.
  { assert (String.length id < String.length (Array_join "/" (before ++ id :: after))); [|lia].
    apply Array_join_longer; [set_solver|].
    rewrite length_app. simpl.
    destruct before, after; simpl; try lia. done. }
  unfold clone_given.
  apply Nat.eqb_neq in Hurl. rewrite Hurl. simpl negb. cbv iota.
  rewrite String_split_join.
  - rewrite filter_app, filter_cons_True by done.
    rewrite filter_none; [done|].
    eapply Forall_impl; [exact Hbefore|]. by intros s [_ ?].
  - by destruct before.
  - apply Forall_app. split.
    + eapply Forall_impl; [exact Hbefore|]. by intros s [? _].
    + by apply Forall_cons.
Qed.

(** X14. In the branch of a script id that is given, a non-empty text that
    is not 57 characters long and has no segment of that length is saved
    and fetched as it is: lines 236-268 check nothing else of it. *)
Theorem clone_keeps_other_text (scriptId : string) (versionNumber : option Z) :
  truthy scriptId = true ->
  String.length scriptId ≠ 57 ->
  Forall (fun s => String.length s ≠ 57) (String_split slash scriptId) ->
  clone_given scriptId versionNumber
  = ([ SpinnerTitle LOG_CLONING; SaveProject scriptId None;
       FetchProject scriptId "" versionNumber ], Returned tt).
Proof.
  intros _ Hlen Hnone. unfold clone_given.
  apply Nat.eqb_neq in Hlen. rewrite Hlen. simpl negb. cbv iota.
  by rewrite filter_none.
Qed.

(** X15. When the Drive listing succeeds, [list] prints no script: a listing
    with files gets the message that none was found, an empty one gets
    nothing. *)
Theorem list_prints_no_file (filesList : FilesList) :
  files_status filesList = 200%Z ->
  list_answered logError filesList
  = (SpinnerStop ::
       match files filesList with
       | Some (_ :: _) => [Log LOG_FINDING_SCRIPTS_DNE]
       | _ => []
       end, Returned tt).
Proof.
  intros Hstatus. unfold list_answered. rewrite Hstatus.
  by destruct (files filesList) as [[|file files]|].
Qed.

(** X16. Without a deployment id, [undeploy] deletes the last deployment of
    the listing when there are two or more. *)
Theorem undeploy_deletes_last (scriptId id : string) (earlier : list Deployment)
    (deploymentsList : DeploymentsResponse) :
  truthy scriptId = true ->
  deployments_status deploymentsList = 200%Z ->
  deployments deploymentsList = Some (earlier ++ [{| deploymentId := Some id |}]) ->
  earlier ≠ [] ->
  undeploy logError scriptId "" deploymentsList 200
  = ([ DeploymentsList scriptId;
       SpinnerTitle (LOG_UNDEPLOYMENT_START id); SpinnerStart;
       DeploymentsDelete scriptId id; SpinnerStop;
       Log (LOG_UNDEPLOYMENT_FINISH id) ], Returned tt).
Proof.
  intros Hid Hstatus Hlist Hne. unfold undeploy.
  rewrite Hid, Hstatus, Hlist. simpl negb. cbv iota. simpl default.
  rewrite length_app. simpl length.
  replace (length earlier + 1 =? 0) with false by (symmetry; apply Nat.eqb_neq; lia).
  replace (length earlier + 1 <=? 1) with false.
  2:{ symmetry. apply Nat.leb_gt. destruct earlier; [done|simpl; lia]. }
  replace (length earlier + 1 - 1) with (length earlier) by lia.
  rewrite list_lookup_middle by done.
  by rewrite or_else_empty.
Qed.

(** X17. For an enabled service with a documentation, the listing prints
    what its name has before the first dot, and the summary. *)
Theorem enabledAPI_label (enabledAPI : Service) (c : ServiceConfig) (d : Documentation)
    (label rest text : string) :
  config enabledAPI = Some c ->
  documentation c = Some d ->
  config_name c = Some (label +:+ "." +:+ rest) ->
  String_indexOf dot label = None ->
  summary d = Some text ->
  enabledAPI_line enabledAPI = call (Log (label +:+ " - " +:+ text)).
Proof.
  intros Hc Hd Hname Hfree Hsummary. unfold enabledAPI_line.
  rewrite Hc, Hd, Hname, Hsummary. simpl default.
  assert (or_else (label +:+ "." +:+ rest) "Unknown name." = label +:+ "." +:+ rest) as ->.
  { unfold or_else, truthy. by destruct label. }
  change (label +:+ "." +:+ rest) with (label +:+ String dot rest).
  by rewrite before_first_spec.
Qed.

(** X18. A key that names an inherited member of the settings object is not
    reported as unknown: the empty text is written. Only a key that is
    neither an own property nor inherited is reported. *)
Theorem setting_inherited_key (settingKey : string)
    (currentSettings : gmap string SettingValue) :
  currentSettings !! settingKey = None ->
  setting_get logError settingKey currentSettings
  = match inherited settingKey with
    | Some _ => call (StdoutWrite "")
    | None => logError None (Some ("Unknown key " +:+ dquote +:+ settingKey +:+ dquote))
    end.
Proof.
  intros Hown. unfold setting_get, get. rewrite Hown.
  by destruct (inherited settingKey).
Qed.

End CommandProperties.

(** * Examples: the properties at concrete inputs *)

Import Sample.
#[local] Existing Instance host.
#[local] Existing Instance utils.

(** [toISOString] at a few instants. *)
Example iso8601_epoch : iso8601 0 = "1970-01-01T00:00:00.000Z".
Proof. reflexivity. Qed.
Example iso8601_2016 : iso8601 1480460400000 = "2016-11-29T23:00:00.000Z".
Proof. reflexivity. Qed.
Example iso8601_leap : iso8601 1582934399999 = "2020-02-28T23:59:59.999Z".
Proof. reflexivity. Qed.
Example iso8601_before_epoch : iso8601 (-1) = "1969-12-31T23:59:59.999Z".
Proof. reflexivity. Qed.

Lemma ansi_truthy colour s : truthy s = true -> truthy (ansi colour s) = true.
Proof. intros Hs. unfold ansi. rewrite Hs. by destruct colour. Qed.

Lemma sample_entry_renders sev ts id text :
  ∃ line, @render host utils plain (entry sev ts id text) = Ok line.
Proof. by apply render_without_proto. Qed.

Lemma burst_renders n :
  Forall (fun e => ∃ line, @render host utils plain e = Ok line) (burst n).
Proof.
  unfold burst. apply Forall_fmap, Forall_forall. intros k _. apply sample_entry_renders.
Qed.

(** The one-shot fetch asks for the newest entries of the project, without
    a lower bound. *)
Example one_shot_request :
  request <$> (match @fetchAndPrintLogs host utils logError_reporting plain "project-id"
                       {| isLocalCreds := false |} None initial with
               | Done p _ => Some p
               | _ => None
               end)
  = Some {| resourceNames := ["projects/project-id"]; filter := "";
            orderBy := "timestamp desc" |}.
Proof. reflexivity. Qed.

(** Its answer with three entries: the echo of the (empty) filter, then the
    three lines, oldest first. *)
Example one_shot_output :
  let fetch := @fetchAndPrintLogs host utils logError_reporting plain "project-id"
                 {| isLocalCreds := false |} None in
  let logs := {| status := 200; statusText := "OK"; data_entries := Some batch3 |} in
  render plain <$> reverse batch3
  = Ok <$> drop 1 (stdout (after (answered fetch logs initial)))
  ∧ head (stdout (after (answered fetch logs initial))) = Some "".
Proof. split; by vm_compute. Qed.

(** With a reporter that returns, status 401 enters the [switch] at its
    first case and runs all three reports. *)
Example unauthorized_reported_three_times :
  let fetch := @fetchAndPrintLogs host utils logError_reporting plain "project-id"
                 {| isLocalCreds := false |} None in
  let logs := {| status := 401; statusText := "Unauthorized"; data_entries := None |} in
  stderr (after (answered fetch logs initial))
  = [ERROR_UNAUTHENTICATED; ERROR_PERMISSION_DENIED; "(401) Error: Unauthorized"].
Proof. reflexivity. Qed.

(** An audit-log record without a method name ends the batch with a
    TypeError: the entry before it (in printing order) is out, the one
    after it is not. *)
Example nameless_audit_throws :
  let batch := [entry "INFO" "3" "id-3" "late"; nameless_audit_entry;
                entry "INFO" "1" "id-1" "early"] in
  ∃ w, @printLogs host utils plain (Some batch) initial = Thrown TypeError w
       ∧ Ok <$> stdout w = [render plain (entry "INFO" "1" "id-1" "early")].
Proof. eexists. split; by vm_compute. Qed.

(** The three-entry batch, fetched twice: three lines. *)
Lemma dedup_across_batches_witness :
  length (stdout (@session host utils plain [Some batch3; Some batch3] initial)) = 3.
Proof.
  refine (proj2 (proj2 (@dedup_across_batches host utils plain []) batch3 _ _ _ _)).
  - cbn. lia.
  - apply (bool_decide_unpack _). by vm_compute.
  - repeat constructor.
  - repeat constructor; apply sample_entry_renders.
Defined.

(** The three-entry batch comes out oldest first. *)
Lemma printed_oldest_first_witness :
  (∃ es,
      es `sublist_of` reverse batch3
      ∧ @rendered host utils plain es
          (output_of (@printLogs host utils plain (Some batch3)) initial)
      ∧ StronglySorted (fun e1 e2 => lexicographic (timestamp e1) (timestamp e2)) es)
  ∧ @rendered host utils plain (reverse batch3)
      (output_of (@printLogs host utils plain (Some batch3)) initial).
Proof.
  destruct (@printed_oldest_first host utils plain lexicographic batch3 initial) as [Hsorted Hall].
  split.
  - apply Hsorted. repeat constructor.
  - apply Hall.
    + cbn. lia.
    + apply (bool_decide_unpack _). by vm_compute.
    + repeat constructor.
    + repeat constructor; apply sample_entry_renders.
Defined.

(** An audit-log record. *)
Lemma audit_log_line_witness :
  @render host utils plain audit_entry =
  Ok (@coloredSeverity host "NOTICE" +:+ " 2019-01-01T00:00:00.000Z "
      +:+ padEnd "SetIamPolicy" 15 +:+ " " +:+ padEnd "Setting up StackDriver Logging." 20).
Proof.
  exact (@audit_log_line host utils plain audit_entry _ eq_refl eq_refl eq_refl).
Defined.

(** A known severity and one that is not known. *)
Lemma severity_label_witness :
  @coloredSeverity host "ERROR" = padEnd (ansi red "ERROR") 20
  ∧ @coloredSeverity host "CRITICAL" = padEnd "CRITICAL" 20.
Proof.
  destruct (@severity_label host ansi_truthy) as [Hknown Hother]. split.
  - apply Hknown. unfold known_severities. apply elem_of_cons. by left.
  - apply Hother; [|done].
    intros colour. unfold known_severities.
    rewrite !elem_of_cons, elem_of_nil. by intros [|[|[|[|[|[]]]]]].
Defined.

(** ["toString"] is seen before anything has been marked. *)
Lemma inherited_ids_never_printed_witness :
  seen (logEntryCache (@session host utils plain [Some batch3] initial)) "toString" = true.
Proof.
  apply (proj1 (@inherited_ids_never_printed host utils plain [Some batch3])).
  by eexists.
Defined.

(** A burst of 51 entries: the 50 oldest are printed, the newest is not
    even marked. *)
Lemma cap_drops_the_newest_witness :
  @rendered host utils plain (reverse (drop 1 (burst 51)))
    (output_of (@printLogs host utils plain (Some (burst 51))) initial)
  ∧ seen (logEntryCache (after (@printLogs host utils plain (Some (burst 51)) initial)))
      (insertId (burst_entry 51)) = false.
Proof.
  destruct (proj2 (@cap_drops_the_newest host utils plain (burst 51) initial))
    as (_ & Hprinted & _ & Hdropped).
  - cbn. lia.
  - apply (bool_decide_unpack _). by vm_compute.
  - apply (bool_decide_unpack _). by vm_compute.
  - apply burst_renders.
  - split; [exact Hprinted|]. by apply Forall_inv in Hdropped.
Defined.

(** The same burst, read as if the 50 newest were printed: the lines are
    those of the entries stamped 1 to 50, not 2 to 51. *)
Lemma cap_counterexample :
  let out := output_of (@printLogs host utils plain (Some (burst 51))) initial in
  length (burst 51) = 51
  ∧ @rendered host utils plain (burst_entry <$> seq 1 50) out
  ∧ ~ @rendered host utils plain (reverse (take 50 (burst 51))) out.
Proof.
  split_and!.
  - done.
  - apply rendered_fmap. by vm_compute.
  - intros Hr%rendered_fmap. vm_compute in Hr. discriminate.
Qed.

(** A tick at 2019-10-27T01:00:30Z on a host whose local time is UTC. *)
Lemma watch_tick_lower_bound_witness :
  ∃ p w',
    @watch_tick host utils logError_reporting watching "project-id"
      {| isLocalCreds := false |} 1572138030000 initial = Done p w'
    ∧ filter (request p) = "timestamp >= " +:+ dquote +:+ "2019-10-27T00:59:30.000Z" +:+ dquote.
Proof.
  apply (@watch_tick_lower_bound host utils logError_reporting watching "project-id"
           {| isLocalCreds := false |} 1572138030000 initial).
  - unfold POLL_INTERVAL. lia.
  - reflexivity.
Defined.

(** C7. A tick at 2019-10-27T01:00:30Z on a host that put its clocks back
    thirty seconds earlier: the wall clock reads 01:00:30, one minute back
    it read 00:59:30 summer time, which is 23:59:30Z of the day before. The
    lower bound of the filter is 61 minutes before the tick, not the 60000
    ms that 10 poll intervals make. *)
Theorem watch_tick_after_clocks_back :
  let now := 1572138030000%Z in
  ∃ p w',
    @watch_tick dst_host utils logError_reporting watching "project-id"
      {| isLocalCreds := false |} now initial = Done p w'
    ∧ filter (request p) = "timestamp >= " +:+ dquote +:+ "2019-10-26T23:59:30.000Z" +:+ dquote
    ∧ iso8601 now = "2019-10-27T01:00:30.000Z"
    ∧ iso8601 (now - 10 * POLL_INTERVAL) = "2019-10-27T00:59:30.000Z"
    ∧ filter (request p)
      <> "timestamp >= " +:+ dquote +:+ iso8601 (now - 10 * POLL_INTERVAL) +:+ dquote.
Proof.
  do 2 eexists. split; [reflexivity|]. split_and!; [done|done|done|].
  intros Heq. vm_compute in Heq. discriminate.
Qed.

(** Status 403 under local credentials, with the reporter that ends the
    process: one message on the error stream. *)
Lemma forbidden_local_reported_once_witness :
  ∃ code w',
    answered (@fetchAndPrintLogs host utils logError_exiting plain "project-id"
                {| isLocalCreds := true |} None)
      {| status := 403; statusText := "Forbidden"; data_entries := None |} initial
    = Exited code w'
    ∧ stderr w' = stderr initial ++ [ERROR_PERMISSION_DENIED_LOCAL].
Proof.
  apply (@forbidden_local_reported_once host utils plain "project-id" logError_exiting 0
           "Forbidden" None initial).
  - intros description w. do 2 eexists. split; reflexivity.
  - by left.
Defined.

(** An options object with [pollIntervalMs: 1000]: the timer is set to 6000
    all the same. *)
Lemma poll_interval_counterexample :
  assoc "pollIntervalMs" (others polling_every_second) = Some (JNumber 1000)
  ∧ interval_of (@logs host utils logError_reporting polling_every_second "project-id"
                   {| isLocalCreds := false |}) = Some 6000%Z
  ∧ 6000%Z <> 1000%Z.
Proof. split_and!; done. Qed.

(** ** The further properties at concrete inputs *)

Import CommandSample.
#[local] Existing Instance texts.

(** An id marked by a first batch is seen after the batch has come again. *)
Lemma seen_persists_witness :
  seen (logEntryCache
          (@session host utils plain [Some batch3]
             (after (@printLogs host utils plain (Some batch3) initial)))) "id-a" = true.
Proof.
  apply (@seen_persists host utils plain [Some batch3]). reflexivity.
Defined.

(** Three entries, the middle one an audit-log record without a method
    name: the oldest is printed, then the TypeError. *)
Lemma printLogs_throws_witness :
  @printLogs host utils plain
    (Some ([entry "INFO" "3" "id-3" "late"] ++ nameless_audit_entry
             :: [entry "INFO" "1" "id-1" "early"])) initial
  = Thrown TypeError
      (after (@printLogs host utils plain (Some [entry "INFO" "1" "id-1" "early"]) initial)).
Proof.
  apply (@printLogs_throws host utils plain).
  - cbn. lia.
  - repeat constructor. apply sample_entry_renders.
  - reflexivity.
Defined.

Lemma text_payload_wins_witness :
  @render host utils plain (entry "INFO" "2019-01-01T00:00:01.000Z" "id-a" "first")
  = Ok (@coloredSeverity host "INFO" +:+ " 2019-01-01T00:00:01.000Z "
        +:+ padEnd "myFunction" 15 +:+ " " +:+ padEnd "first" 20).
Proof.
  etrans; [by apply (@text_payload_wins host utils plain _ "first")|].
  by vm_compute.
Defined.

Lemma json_payload_truncated_witness :
  ∃ shown rest,
    stringify (JObject [("message", JString "hi")]) = shown +:+ rest
    ∧ String.length shown
      = min 255 (String.length (stringify (JObject [("message", JString "hi")])))
    ∧ @render host utils plain json_entry
      = Ok (@coloredSeverity host "INFO" +:+ " 2019-01-01T00:00:04.000Z "
            +:+ padEnd "myFunction" 15 +:+ " " +:+ padEnd shown 20).
Proof.
  exact (@json_payload_truncated host utils plain json_entry [("message", JString "hi")]
           eq_refl (or_introl eq_refl) eq_refl eq_refl).
Defined.

(** The one-shot fetch answered with three entries. *)
Lemma ok_answer_witness :
  ∃ p w',
    @fetchAndPrintLogs host utils logError_reporting plain "project-id"
      {| isLocalCreds := false |} None initial = Done p w'
    ∧ let w'' := after (resume p {| status := 200; statusText := "OK";
                                    data_entries := Some batch3 |} w') in
      stdout w''
      = stdout initial ++ filter (request p)
          :: output_of (@printLogs host utils plain (Some batch3)) initial
      ∧ stderr w'' = stderr initial
      ∧ spinner w'' = None
      ∧ opened w'' = opened initial.
Proof.
  do 2 eexists. split; [reflexivity|].
  apply (@ok_answer host utils logError_reporting plain "project-id"
           {| isLocalCreds := false |} None "OK" (Some batch3) initial).
  reflexivity.
Defined.

(** The one-shot fetch answered with status 403 and three entries. *)
Lemma failed_fetch_prints_no_entries_witness :
  ∃ p w',
    @fetchAndPrintLogs host utils logError_reporting plain "project-id"
      {| isLocalCreds := false |} None initial = Done p w'
    ∧ let logs := {| status := 403; statusText := "Forbidden";
                     data_entries := Some batch3 |} in
      output_of (resume p logs) w' = [filter (request p)]
      ∧ logEntryCache (after (resume p logs w')) = logEntryCache initial.
Proof.
  do 2 eexists. split; [reflexivity|].
  apply (@failed_fetch_prints_no_entries host utils logError_reporting plain "project-id"
           {| isLocalCreds := false |} None).
  - intros description w. split; reflexivity.
  - reflexivity.
  - simpl. lia.
Defined.

Lemma clone_bare_id_twice_witness :
  clone_given script_id None
  = ([ SpinnerTitle LOG_CLONING; SaveProject script_id None;
       FetchProject script_id "" None;
       SpinnerTitle LOG_CLONING; SaveProject script_id None;
       FetchProject script_id "" None ], Returned tt).
Proof. exact (clone_bare_id_twice script_id None eq_refl). Defined.

(** The URL of the comment of line 239. *)
Lemma clone_url_extracts_id_witness :
  clone_given
    "https://script.google.com/a/DOMAIN/d/1Ng7bNZ1K95wNi2H7IUwZzM68FL6ffxQhyc_ByV42zpS6qAFX8pFsWu2I/edit"
    None
  = ([ SpinnerTitle LOG_CLONING; SaveProject script_id None;
       FetchProject script_id "" None ], Returned tt).
Proof.
  change (clone_given
            (Array_join "/" (["https:"; ""; "script.google.com"; "a"; "DOMAIN"; "d"]
                             ++ script_id :: ["edit"])) None
          = ([ SpinnerTitle LOG_CLONING; SaveProject script_id None;
               FetchProject script_id "" None ], Returned tt)).
  apply (clone_url_extracts_id ["https:"; ""; "script.google.com"; "a"; "DOMAIN"; "d"]
           ["edit"] script_id None).
  - apply (bool_decide_unpack _). by vm_compute.
  - reflexivity.
  - reflexivity.
  - apply (bool_decide_unpack _). by vm_compute.
  - done.
Defined.

Lemma clone_keeps_other_text_witness :
  clone_given "my-script" None
  = ([ SpinnerTitle LOG_CLONING; SaveProject "my-script" None;
       FetchProject "my-script" "" None ], Returned tt).
Proof.
  apply (clone_keeps_other_text "my-script" None).
  - reflexivity.
  - simpl. lia.
  - apply (bool_decide_unpack _). by vm_compute.
Defined.

(** A listing of two scripts: the message that no script was found. *)
Lemma list_prints_no_file_witness :
  list_answered logError_returning two_files
  = ([SpinnerStop; Log LOG_FINDING_SCRIPTS_DNE], Returned tt).
Proof. exact (list_prints_no_file logError_returning two_files eq_refl). Defined.

Lemma undeploy_deletes_last_witness :
  undeploy logError_returning script_id "" three_deployments 200
  = ([ DeploymentsList script_id;
       SpinnerTitle (LOG_UNDEPLOYMENT_START "second"); SpinnerStart;
       DeploymentsDelete script_id "second"; SpinnerStop;
       Log (LOG_UNDEPLOYMENT_FINISH "second") ], Returned tt).
Proof.
  apply (undeploy_deletes_last logError_returning script_id "second"
           [ {| deploymentId := Some "head" |}; {| deploymentId := Some "first" |} ]
           three_deployments); done.
Defined.

Lemma enabledAPI_label_witness :
  enabledAPI_line sheets = call (Log "sheets - Reads and writes Google Sheets.").
Proof.
  exact (enabledAPI_label sheets _ _ "sheets" "googleapis.com"
           "Reads and writes Google Sheets." eq_refl eq_refl eq_refl eq_refl eq_refl).
Defined.

(** The key [toString] is in no settings file, and is not unknown. *)
Lemma setting_inherited_key_witness :
  setting_get logError_returning "toString" settings = call (StdoutWrite "").
Proof.
  apply (setting_inherited_key logError_returning "toString" settings).
  by vm_compute.
Defined.
